(** * rktl_sim/simulator.py: the car-soccer simulation core

    A shallow embedding of [src/rktl_sim/simulator.py]: the vehicle motion
    model ([Car.update]), the ball deceleration model ([Ball.decelerate])
    and the goal detection / reset state machine of [Game].

    Python floats are read as real numbers (type [R]); [math.sqrt],
    [math.cos] and [math.sin] are the real functions.  Python object
    identity (which body or shape is a member of the physics space) is an
    identifier drawn from an allocation counter.  The physics engine's
    [Space.step] is a collaborator of the program and is a parameter of the
    loop; the few operations of the engine that the simulator's own logic
    depends on ([Vec2d.t] arithmetic, [apply_impulse_at_local_point],
    [Space.add] and [Space.remove]) are written out. *)

From Stdlib Require Import Reals Lra Lia ZArith List Bool.
Import ListNotations.

Open Scope R_scope.

(** ** pymunk.Vec2d *)

Module Vec2d.

Record t : Type := mk { x : R; y : R }.

Definition zero : t := mk 0 0.

Definition add (a b : t) : t := mk (x a + x b) (y a + y b).

(** [v * k] and [k * v]. *)
Definition scale (k : R) (v : t) : t := mk (x v * k) (y v * k).

(** [v / k]. *)
Definition div (v : t) (k : R) : t := mk (x v / k) (y v / k).

(** [-v]. *)
Definition neg (v : t) : t := mk (- x v) (- y v).

Definition cross (a b : t) : R := x a * y b - y a * x b.

(** [v.length]. *)
Definition length (v : t) : R := sqrt (x v * x v + y v * y v).

(** [v.normalized()]: the zero vector when the length is 0. *)
Definition normalized (v : t) : t :=
  if Req_dec_T (length v) 0 then zero else div v (length v).

(** The rotation of the body transform, applied to a local vector. *)
Definition rotated (v : t) (a : R) : t :=
  mk (cos a * x v - sin a * y v) (sin a * x v + cos a * y v).

End Vec2d.

(** ** Module constants *)

(** Car specs *)
Definition CAR_LENGTH : R := 16.5.
Definition CAR_WIDTH : R := 8.5.
Definition CAR_MASS : R := 5.
Definition CAR_SPEED : R := 5.
Definition CAR_TURN : R := 30.
Definition BRAKE_SPEED : R := 5.
Definition FREE_DECELERATION : R := 0.5.
Definition CAR_FRICTION : R := 0.5.

(** Field specs *)
Definition FIELD_WIDTH : R := 426.72.
Definition FIELD_HEIGHT : R := 304.8.
Definition GOAL_HEIGHT : R := 81.28.
Definition GOAL_DEPTH : R := 25.4.
Definition SIDE_WALL : R := (FIELD_HEIGHT - GOAL_HEIGHT) / 2.
Definition FIELD_FRICTION : R := 0.3.
Definition FIELD_ELASTICITY : R := 0.5.

(** Ball specs *)
Definition BALL_MASS : R := 0.1.
Definition BALL_RADIUS : R := 6.85 / 2.
Definition BALL_POS : Vec2d.t :=
  Vec2d.mk ((FIELD_WIDTH + GOAL_DEPTH) / 2) (FIELD_HEIGHT / 2).
Definition BALL_ELASTICITY : R := 1.
Definition BALL_FRICTION : R := 0.5.
Definition BALL_DECELERATION : R := 0.1.

(** Sim limits *)
Definition MAX_SPEED : R := 200.

(** [math.radians] *)
Definition radians (deg : R) : R := deg * PI / 180.

(** ** pymunk.Body and pymunk.Shape *)

Record Body : Type := mkBody {
  body_id : nat;
  mass : R;
  moment : R;
  position : Vec2d.t;
  velocity : Vec2d.t;
  angle : R;
  angular_velocity : R
}.

Definition moment_for_box (m w h : R) : R := m * (w * w + h * h) / 12.

Definition moment_for_circle (m inner outer : R) : R :=
  m * (0.5 * (inner * inner + outer * outer)).

(** [pymunk.Body(mass, moment)]: at rest at the origin. *)
Definition Body_init (id : nat) (m i : R) : Body :=
  mkBody id m i Vec2d.zero Vec2d.zero 0 0.

Definition set_position (b : Body) (p : Vec2d.t) : Body :=
  mkBody (body_id b) (mass b) (moment b) p (velocity b) (angle b)
         (angular_velocity b).

Definition set_velocity (b : Body) (v : Vec2d.t) : Body :=
  mkBody (body_id b) (mass b) (moment b) (position b) v (angle b)
         (angular_velocity b).

Definition set_angle (b : Body) (a : R) : Body :=
  mkBody (body_id b) (mass b) (moment b) (position b) (velocity b) a
         (angular_velocity b).

Definition set_angular_velocity (b : Body) (w : R) : Body :=
  mkBody (body_id b) (mass b) (moment b) (position b) (velocity b) (angle b) w.

(** [body.apply_impulse_at_local_point(impulse, point)]: the impulse and
    the point are taken to world coordinates by the body's rotation; the
    velocity gains [j / mass] and the angular velocity [cross r j / moment]. *)
Definition apply_impulse_at_local_point
    (b : Body) (impulse point : Vec2d.t) : Body :=
  let j := Vec2d.rotated impulse (angle b) in
  let r := Vec2d.rotated point (angle b) in
  mkBody (body_id b) (mass b) (moment b) (position b)
         (Vec2d.add (velocity b) (Vec2d.scale (1 / mass b) j))
         (angle b)
         (angular_velocity b + Vec2d.cross r j / moment b).

Record Shape : Type := mkShape {
  shape_id : nat;
  friction : R;
  elasticity : R
}.

(** A static wall: [pymunk.Segment(space.static_body, a, b, radius)]. *)
Record Segment : Type := mkSegment {
  seg_shape : Shape;
  seg_a : Vec2d.t;
  seg_b : Vec2d.t;
  seg_radius : R
}.

(** ** pymunk.Space: which objects are members *)

Record Space : Type := mkSpace {
  members : list nat;
  static_segments : list Segment
}.

Definition Space_init : Space := mkSpace [] [].

Definition contains (sp : Space) (id : nat) : bool :=
  existsb (Nat.eqb id) (members sp).

(** [space.add(obj)] refuses an object that is already a member. *)
Definition Space_add1 (sp : Space) (id : nat) : option Space :=
  if contains sp id then None
  else Some (mkSpace (id :: members sp) (static_segments sp)).

(** [space.remove(obj)] refuses an object that is not a member. *)
Definition Space_remove1 (sp : Space) (id : nat) : option Space :=
  if contains sp id
  then Some (mkSpace (filter (fun m => negb (Nat.eqb id m)) (members sp))
                     (static_segments sp))
  else None.

Fixpoint Space_add (sp : Space) (ids : list nat) : option Space :=
  match ids with
  | [] => Some sp
  | id :: rest =>
      match Space_add1 sp id with
      | Some sp' => Space_add sp' rest
      | None => None
      end
  end.

Fixpoint Space_remove (sp : Space) (ids : list nat) : option Space :=
  match ids with
  | [] => Some sp
  | id :: rest =>
      match Space_remove1 sp id with
      | Some sp' => Space_remove sp' rest
      | None => None
      end
  end.

Definition Space_add_segments (sp : Space) (segs : list Segment)
  : option Space :=
  match Space_add sp (map (fun s => shape_id (seg_shape s)) segs) with
  | Some sp' => Some (mkSpace (members sp') (segs ++ static_segments sp'))
  | None => None
  end.

(** ** Keyboard snapshot: [pygame.key.get_pressed()] *)

Record Keys : Type := mkKeys {
  K_UP : bool;
  K_DOWN : bool;
  K_SPACE : bool;
  K_LEFT : bool;
  K_RIGHT : bool
}.

Definition ltb (a b : R) : bool := if Rlt_dec a b then true else false.
Definition gtb (a b : R) : bool := if Rgt_dec a b then true else false.

(** ** class Car *)

Module Car.

Record t : Type := mk {
  body : Body;
  shape : Shape;
  steering : R;
  reverse : Z
}.

Definition set_body (c : t) (b : Body) : t :=
  mk b (shape c) (steering c) (reverse c).

Definition set_reverse (c : t) (r : Z) : t :=
  mk (body c) (shape c) (steering c) r.

(** [Car.__init__(x, y, space, angle)]; [fresh] and [fresh + 1] are the
    identities of the new body and of the new shape. *)
Definition init (x y : R) (space : Space) (angle : R) (fresh : nat)
  : option (t * Space) :=
  let b := Body_init fresh CAR_MASS
                     (moment_for_box CAR_MASS CAR_LENGTH CAR_WIDTH) in
  let b := set_position b (Vec2d.mk x y) in
  let b := set_angle b (radians angle) in
  let s := mkShape (S fresh) CAR_FRICTION 0 in
  match Space_add space [body_id b; shape_id s] with
  | Some space' => Some (mk b s 0 1, space')
  | None => None
  end.

Definition forward_direction (c : t) : Vec2d.t :=
  Vec2d.mk (cos (angle (body c))) (sin (angle (body c))).

Definition impulse : Vec2d.t := Vec2d.scale CAR_SPEED (Vec2d.mk 1 0).

Definition push (c : t) (j : Vec2d.t) : t :=
  set_body c (apply_impulse_at_local_point (body c) j Vec2d.zero).

Definition speed (c : t) : R := Vec2d.length (velocity (body c)).

(** The throttle chain of [update]: [K_UP], [K_DOWN], [K_SPACE], idle. *)
Definition throttle (keys : Keys) (c : t) : t :=
  if K_UP keys then
    let c1 := if (reverse c =? 1)%Z
              then push c impulse
              else push c (Vec2d.scale BRAKE_SPEED impulse) in
    if ltb (speed c1) 5 then set_reverse c1 1 else c1
  else if K_DOWN keys then
    let c1 := if (reverse c =? -1)%Z
              then push c (Vec2d.neg impulse)
              else push c (Vec2d.scale BRAKE_SPEED (Vec2d.neg impulse)) in
    if ltb (speed c1) 5 then set_reverse c1 (-1) else c1
  else if K_SPACE keys then
    if (reverse c =? -1)%Z
    then push c (Vec2d.scale BRAKE_SPEED impulse)
    else if (reverse c =? 1)%Z
    then push c (Vec2d.scale BRAKE_SPEED (Vec2d.neg impulse))
    else c
  else
    set_body c
      (set_velocity (body c)
         (Vec2d.scale (IZR (reverse c))
            (Vec2d.scale (speed c - FREE_DECELERATION)
               (forward_direction c)))).

Definition turning_radius : R := CAR_LENGTH / sin (radians CAR_TURN).

(** Turning the car. *)
Definition turn (keys : Keys) (c : t) : t :=
  if K_LEFT keys then
    set_body c (set_angular_velocity (body c)
                  (speed c / - turning_radius * IZR (reverse c)))
  else if K_RIGHT keys then
    set_body c (set_angular_velocity (body c)
                  (speed c / turning_radius * IZR (reverse c)))
  else
    set_body c (set_angular_velocity (body c) 0).

(** Reset drift: the velocity only points along the facing angle. *)
Definition reset_drift (forward : Vec2d.t) (c : t) : t :=
  set_body c
    (set_velocity (body c)
       (Vec2d.scale (Rmin (speed c) MAX_SPEED)
          (Vec2d.scale (IZR (reverse c)) forward))).

(** [Car.update(keys)]. *)
Definition update (keys : Keys) (c : t) : t :=
  let forward := forward_direction c in
  reset_drift forward (turn keys (throttle keys c)).

End Car.

(** ** class Ball *)

Module Ball.

Record t : Type := mk {
  inertia : R;
  body : Body;
  shape : Shape
}.

Definition set_body (b : t) (bd : Body) : t :=
  mk (inertia b) bd (shape b).

(** [Ball.__init__(x, y, space, impulse)]. *)
Definition init (x y : R) (space : Space) (impulse : Vec2d.t) (fresh : nat)
  : option (t * Space) :=
  let i := moment_for_circle BALL_MASS 0 BALL_RADIUS in
  let b := Body_init fresh BALL_MASS i in
  let b := set_position b (Vec2d.mk x y) in
  let s := mkShape (S fresh) BALL_FRICTION BALL_ELASTICITY in
  match Space_add space [body_id b; shape_id s] with
  | Some space' =>
      Some (mk i (apply_impulse_at_local_point b impulse Vec2d.zero) s,
            space')
  | None => None
  end.

(** [Ball.decelerate()]. *)
Definition decelerate (b : t) : t :=
  set_body b
    (set_velocity (body b)
       (Vec2d.scale
          (Vec2d.length (velocity (body b)) - BALL_DECELERATION)
          (Vec2d.normalized (velocity (body b))))).

(** [Ball.getPos()]. *)
Definition getPos (b : t) : Vec2d.t := position (body b).

End Ball.


(** ** The physics step and the per-tick inputs *)

(** What [Space.step] may change of a body. *)
Record Motion : Type := mkMotion {
  m_position : Vec2d.t;
  m_velocity : Vec2d.t;
  m_angle : R;
  m_angular_velocity : R
}.

Definition moved (b : Body) (m : Motion) : Body :=
  mkBody (body_id b) (mass b) (moment b)
         (m_position m) (m_velocity m) (m_angle m) (m_angular_velocity m).

(** [space.step(dt)], as the engine computes it: from the space, the time
    step and the bodies of the space, the motion of each body. *)
Definition Physics : Type := Space -> R -> list Body -> Body -> Motion.

(** What one iteration of the loop reads from pygame: the clock
    ([clock.get_time()], in milliseconds), whether a QUIT event is queued,
    and the keyboard snapshot. *)
Record TickInput : Type := mkTickInput {
  clock_time : R;
  quit : bool;
  pressed : Keys
}.

(** Failure (a Python exception) is [None]. *)
Definition bind {A B : Type} (m : option A) (k : A -> option B) : option B :=
  match m with
  | Some a => k a
  | None => None
  end.

Notation "x <- m ;; k" := (bind m (fun x => k))
  (at level 61, m at next level, right associativity).
Notation "' p <- m ;; k" := (bind m (fun p => k))
  (at level 61, p pattern, m at next level, right associativity).

(** ** class Game *)

Module Game.

Record t : Type := mk {
  leftscore : Z;
  rightscore : Z;
  ticks : Z;
  walls : bool;
  exit : bool;
  gameSpace : Space;
  ball : option Ball.t;
  cars : option (list Car.t);
  next_id : nat
}.

(** [Game.__init__(walls)]; [ball] and [cars] do not exist yet. *)
Definition init (w : bool) : t :=
  mk 0 0 60 w false Space_init None None 0.

Definition set_leftscore (g : t) (n : Z) : t :=
  mk n (rightscore g) (ticks g) (walls g) (exit g) (gameSpace g)
     (ball g) (cars g) (next_id g).

Definition set_rightscore (g : t) (n : Z) : t :=
  mk (leftscore g) n (ticks g) (walls g) (exit g) (gameSpace g)
     (ball g) (cars g) (next_id g).

Definition set_exit (g : t) (e : bool) : t :=
  mk (leftscore g) (rightscore g) (ticks g) (walls g) e (gameSpace g)
     (ball g) (cars g) (next_id g).

Definition set_gameSpace (g : t) (sp : Space) : t :=
  mk (leftscore g) (rightscore g) (ticks g) (walls g) (exit g) sp
     (ball g) (cars g) (next_id g).

Definition set_objects (g : t) (b : Ball.t) (cs : list Car.t) : t :=
  mk (leftscore g) (rightscore g) (ticks g) (walls g) (exit g) (gameSpace g)
     (Some b) (Some cs) (next_id g).

Definition set_next_id (g : t) (n : nat) : t :=
  mk (leftscore g) (rightscore g) (ticks g) (walls g) (exit g) (gameSpace g)
     (ball g) (cars g) n.

(** [Game.addObjects()]: a new ball, then the two new cars. *)
Definition addObjects (g : t) : option t :=
  let n := next_id g in
  '(b, sp1) <- Ball.init (Vec2d.x BALL_POS) (Vec2d.y BALL_POS)
                         (gameSpace g) Vec2d.zero n ;;
  '(c1, sp2) <- Car.init ((FIELD_WIDTH + GOAL_DEPTH) / 3) (FIELD_HEIGHT / 2)
                         sp1 0 (n + 2) ;;
  '(c2, sp3) <- Car.init (2 * (FIELD_WIDTH + GOAL_DEPTH) / 3)
                         (FIELD_HEIGHT / 2 + 50) sp2 180 (n + 4) ;;
  Some (set_next_id (set_objects (set_gameSpace g sp3) b [c1; c2]) (n + 6)).

Fixpoint remove_cars (sp : Space) (cs : list Car.t) : option Space :=
  match cs with
  | [] => Some sp
  | c :: rest =>
      sp' <- Space_remove sp [body_id (Car.body c); shape_id (Car.shape c)] ;;
      remove_cars sp' rest
  end.

(** [Game.reset()]. *)
Definition reset (g : t) : option t :=
  cs <- cars g ;;
  sp1 <- remove_cars (gameSpace g) cs ;;
  b <- ball g ;;
  sp2 <- Space_remove sp1 [body_id (Ball.body b); shape_id (Ball.shape b)] ;;
  addObjects (set_gameSpace g sp2).

(** [Game.checkGoal(ball, leftgoal, rightgoal, topgoal, botgoal)]. *)
Definition checkGoal (g : t) (b : Ball.t)
    (leftgoal rightgoal topgoal botgoal : R) : option t :=
  if ltb (Vec2d.x (Ball.getPos b)) leftgoal then
    let g1 :=
      if gtb (Vec2d.y (Ball.getPos b)) topgoal
         && ltb (Vec2d.y (Ball.getPos b)) botgoal
      then set_rightscore g (rightscore g + 1)
      else g in
    reset g1
  else if gtb (Vec2d.x (Ball.getPos b)) rightgoal then
    let g1 :=
      if gtb (Vec2d.y (Ball.getPos b)) topgoal
         && ltb (Vec2d.y (Ball.getPos b)) botgoal
      then set_leftscore g (leftscore g + 1)
      else g in
    reset g1
  else Some g.

Definition wall (id : nat) (a b : Vec2d.t) : Segment :=
  mkSegment (mkShape id FIELD_FRICTION FIELD_ELASTICITY) a b 0.

(** The walls of the field, [static_lines] in [run]. *)
Definition static_lines (n : nat) : list Segment :=
  [ wall n (Vec2d.mk GOAL_DEPTH 0) (Vec2d.mk FIELD_WIDTH 0);
    wall (n + 1) (Vec2d.mk FIELD_WIDTH FIELD_HEIGHT)
                 (Vec2d.mk GOAL_DEPTH FIELD_HEIGHT);
    wall (n + 2) (Vec2d.mk FIELD_WIDTH 0) (Vec2d.mk FIELD_WIDTH SIDE_WALL);
    wall (n + 3) (Vec2d.mk FIELD_WIDTH SIDE_WALL)
                 (Vec2d.mk (FIELD_WIDTH + GOAL_DEPTH) SIDE_WALL);
    wall (n + 4)
         (Vec2d.mk (FIELD_WIDTH + GOAL_DEPTH) SIDE_WALL)
         (Vec2d.mk (FIELD_WIDTH + GOAL_DEPTH) (GOAL_HEIGHT + SIDE_WALL));
    wall (n + 5)
         (Vec2d.mk FIELD_WIDTH (GOAL_HEIGHT + SIDE_WALL))
         (Vec2d.mk (FIELD_WIDTH + GOAL_DEPTH) (SIDE_WALL + GOAL_HEIGHT));
    wall (n + 6) (Vec2d.mk FIELD_WIDTH (GOAL_HEIGHT + SIDE_WALL))
                 (Vec2d.mk FIELD_WIDTH FIELD_HEIGHT);
    wall (n + 7) (Vec2d.mk GOAL_DEPTH SIDE_WALL) (Vec2d.mk GOAL_DEPTH 0);
    wall (n + 8) (Vec2d.mk GOAL_DEPTH SIDE_WALL) (Vec2d.mk 0 SIDE_WALL);
    wall (n + 9) (Vec2d.mk 0 SIDE_WALL) (Vec2d.mk 0 (GOAL_HEIGHT + SIDE_WALL));
    wall (n + 10) (Vec2d.mk GOAL_DEPTH (GOAL_HEIGHT + SIDE_WALL))
                  (Vec2d.mk 0 (SIDE_WALL + GOAL_HEIGHT));
    wall (n + 11) (Vec2d.mk GOAL_DEPTH (GOAL_HEIGHT + SIDE_WALL))
                  (Vec2d.mk GOAL_DEPTH FIELD_HEIGHT) ].

(** The start of [run]: the objects, and the walls when they are on. *)
Definition start (g : t) : option t :=
  g1 <- addObjects g ;;
  if walls g1 then
    sp <- Space_add_segments (gameSpace g1) (static_lines (next_id g1)) ;;
    Some (set_next_id (set_gameSpace g1 sp) (next_id g1 + 12))
  else Some g1.

(** [gameSpace.step(dt)] on the bodies the game holds. *)
Definition step (physics : Physics) (dt : R) (g : t) : t :=
  match ball g, cars g with
  | Some b, Some cs =>
      let world := Ball.body b :: map Car.body cs in
      let move bd := moved bd (physics (gameSpace g) dt world bd) in
      set_objects g
        (Ball.set_body b (move (Ball.body b)))
        (map (fun c => Car.set_body c (move (Car.body c))) cs)
  | _, _ => g
  end.

(** One iteration of the loop of [run]. *)
Definition tick (physics : Physics) (inp : TickInput) (g : t) : option t :=
  let dt := clock_time inp / 1000 in
  let g := if quit inp then set_exit g true else g in
  cs <- cars g ;;
  b <- ball g ;;
  let g := set_objects g (Ball.decelerate b)
                       (map (Car.update (pressed inp)) cs) in
  g <- (if walls g
        then checkGoal g (Ball.decelerate b) GOAL_DEPTH FIELD_WIDTH SIDE_WALL
                       (SIDE_WALL + GOAL_HEIGHT)
        else Some g) ;;
  Some (step physics dt g).

(** The loop of [run], on the inputs of its successive iterations. *)
Fixpoint loop (physics : Physics) (inputs : list TickInput) (g : t)
  : option t :=
  match inputs with
  | [] => Some g
  | inp :: rest =>
      if exit g then Some g
      else g' <- tick physics inp g ;; loop physics rest g'
  end.

(** [Game.run()]. *)
Definition run (physics : Physics) (inputs : list TickInput) (g : t)
  : option t :=
  g1 <- start g ;;
  loop physics inputs g1.

End Game.


(** ** Predicates on states *)

(** The reverse flag holds one of its two values. *)
Definition reverse_ok (c : Car.t) : Prop :=
  Car.reverse c = 1%Z \/ Car.reverse c = (-1)%Z.

(** The identities of the objects a game holds, in the order in which
    [reset] takes them out of the space. *)
Definition car_ids (c : Car.t) : list nat :=
  [body_id (Car.body c); shape_id (Car.shape c)].

Definition object_ids (b : Ball.t) (cs : list Car.t) : list nat :=
  flat_map car_ids cs ++ [body_id (Ball.body b); shape_id (Ball.shape b)].

Definition identities (g : Game.t) : option (list nat) :=
  match Game.ball g, Game.cars g with
  | Some b, Some cs => Some (object_ids b cs)
  | _, _ => None
  end.

(** A match in play: the ball and the cars exist, they are distinct
    objects, all of them members of the space, and every identity in use is
    below the allocation counter. *)
Definition in_play (g : Game.t) : Prop :=
  exists b cs,
    Game.ball g = Some b /\ Game.cars g = Some cs /\
    NoDup (object_ids b cs) /\
    (forall id, In id (object_ids b cs) ->
                In id (members (Game.gameSpace g))) /\
    (forall id, In id (members (Game.gameSpace g)) ->
                (id < Game.next_id g)%nat).

(** The poses of the objects: the ball's position, and each car's position
    and angle. *)
Definition poses (g : Game.t)
  : option (Vec2d.t * list (Vec2d.t * R)) :=
  match Game.ball g, Game.cars g with
  | Some b, Some cs =>
      Some (position (Ball.body b),
            map (fun c => (position (Car.body c), angle (Car.body c))) cs)
  | _, _ => None
  end.

(** The spawn constants of [addObjects]. *)
Definition spawn_poses : Vec2d.t * list (Vec2d.t * R) :=
  (BALL_POS,
   [ (Vec2d.mk ((FIELD_WIDTH + GOAL_DEPTH) / 3) (FIELD_HEIGHT / 2),
      radians 0);
     (Vec2d.mk (2 * (FIELD_WIDTH + GOAL_DEPTH) / 3) (FIELD_HEIGHT / 2 + 50),
      radians 180) ]).

(** A car that moves along its facing axis, at speed [s] in the direction
    its reverse flag names. *)
Definition aligned (c : Car.t) (s : R) : Prop :=
  0 <= s /\
  velocity (Car.body c) =
  Vec2d.scale s (Vec2d.scale (IZR (Car.reverse c)) (Car.forward_direction c)).

(** The throttle key held asks for the direction the car travels in. *)
Definition with_travel (keys : Keys) (c : Car.t) : Prop :=
  (K_UP keys = true /\ Car.reverse c = 1%Z) \/
  (K_UP keys = false /\ K_DOWN keys = true /\ Car.reverse c = (-1)%Z).

(** The throttle key held asks for the opposite direction. *)
Definition against_travel (keys : Keys) (c : Car.t) : Prop :=
  (K_UP keys = true /\ Car.reverse c = (-1)%Z) \/
  (K_UP keys = false /\ K_DOWN keys = true /\ Car.reverse c = 1%Z).

(** Only the handbrake is held. *)
Definition handbrake (keys : Keys) : Prop :=
  K_UP keys = false /\ K_DOWN keys = false /\ K_SPACE keys = true.

(** [update] once per element of [ks], in order. *)
Definition updates (ks : list Keys) (c : Car.t) : Car.t :=
  fold_left (fun c k => Car.update k c) ks c.

(** [decelerate] [n] times. *)
Definition decelerates (n : nat) (b : Ball.t) : Ball.t :=
  Nat.iter n Ball.decelerate b.

(** A body that neither moves nor spins. *)
Definition at_rest (bd : Body) : Prop :=
  velocity bd = Vec2d.zero /\ angular_velocity bd = 0.

(** ** States used as concrete inputs *)

(** A ball at its spawn point with velocity [v]. *)
Definition ball_moving (v : Vec2d.t) : Ball.t :=
  let i := moment_for_circle BALL_MASS 0 BALL_RADIUS in
  Ball.mk i (mkBody 0 BALL_MASS i BALL_POS v 0 0)
          (mkShape 1 BALL_FRICTION BALL_ELASTICITY).

(** A ball at rest at position [p]. *)
Definition ball_at (p : Vec2d.t) : Ball.t :=
  let i := moment_for_circle BALL_MASS 0 BALL_RADIUS in
  Ball.mk i (mkBody 0 BALL_MASS i p Vec2d.zero 0 0)
          (mkShape 1 BALL_FRICTION BALL_ELASTICITY).

(** A car at the origin facing East, with reverse flag [r] and velocity [v]. *)
Definition car_moving (r : Z) (v : Vec2d.t) : Car.t :=
  Car.mk (mkBody 2 CAR_MASS (moment_for_box CAR_MASS CAR_LENGTH CAR_WIDTH)
                 Vec2d.zero v 0 0)
         (mkShape 3 CAR_FRICTION 0) 0 r.

Definition no_keys : Keys := mkKeys false false false false false.
Definition up_key : Keys := mkKeys true false false false false.

Definition down_key : Keys := mkKeys false true false false false.
Definition space_key : Keys := mkKeys false false true false false.
Definition up_left_keys : Keys := mkKeys true false false true false.
Definition all_keys : Keys := mkKeys true true true true true.

(** A second car, at its spawn pose. *)
Definition second_car : Car.t :=
  Car.mk (mkBody 4 CAR_MASS (moment_for_box CAR_MASS CAR_LENGTH CAR_WIDTH)
                 (Vec2d.mk (2 * (FIELD_WIDTH + GOAL_DEPTH) / 3)
                           (FIELD_HEIGHT / 2 + 50))
                 Vec2d.zero (radians 180) 0)
         (mkShape 5 CAR_FRICTION 0) 0 1.

(** A match without walls whose ball has left the field on the left, at
    the height of the goal mouth. *)
Definition stray_game : Game.t :=
  Game.mk 0 0 60 false false (mkSpace [5; 4; 3; 2; 1; 0]%nat [])
          (Some (ball_at (Vec2d.mk (-10) (FIELD_HEIGHT / 2))))
          (Some [car_moving 1 Vec2d.zero; second_car]) 6.

(** A match with walls whose ball lies in the left goal, past the goal
    line and at the height of the goal mouth. *)
Definition goal_game : Game.t :=
  Game.mk 0 0 60 true false (mkSpace [5; 4; 3; 2; 1; 0]%nat [])
          (Some (ball_at (Vec2d.mk 10 (FIELD_HEIGHT / 2))))
          (Some [car_moving 1 Vec2d.zero; second_car]) 6.

(** Bodies that keep their velocity and angular velocity for the time
    step: a physics step without collisions. *)
Definition free_motion : Physics :=
  fun _ dt _ b =>
    mkMotion (Vec2d.add (position b) (Vec2d.scale dt (velocity b)))
             (velocity b)
             (angle b + angular_velocity b * dt)
             (angular_velocity b).

(** The match as [run] starts it, with walls or without; [Game.init w]
    itself should [start] fail (it does not, see [kickoff_start]). *)
Definition kickoff (w : bool) : Game.t :=
  match Game.start (Game.init w) with
  | Some g => g
  | None => Game.init w
  end.

(** * Properties *)

(** ** Vectors *)

Lemma length_nonneg (v : Vec2d.t) : 0 <= Vec2d.length v.
Proof. unfold Vec2d.length. apply sqrt_pos. Qed.

Lemma length_of_square (a b l : R) :
  0 <= l -> a * a + b * b = l * l -> Vec2d.length (Vec2d.mk a b) = l.
Proof.
  intros Hl Heq. unfold Vec2d.length. simpl.
  rewrite Heq. now apply sqrt_square.
Qed.

Lemma length_zero : Vec2d.length Vec2d.zero = 0.
Proof. apply length_of_square; lra. Qed.

Lemma length_scale (k : R) (v : Vec2d.t) :
  Vec2d.length (Vec2d.scale k v) = Rabs k * Vec2d.length v.
Proof.
  unfold Vec2d.length, Vec2d.scale. simpl.
  replace (Vec2d.x v * k * (Vec2d.x v * k) + Vec2d.y v * k * (Vec2d.y v * k))
    with (k * k * (Vec2d.x v * Vec2d.x v + Vec2d.y v * Vec2d.y v)) by ring.
  rewrite sqrt_mult_alt by nra.
  f_equal. change (k * k) with (Rsqr k). apply sqrt_Rsqr_abs.
Qed.

Lemma length_eq_0 (v : Vec2d.t) : Vec2d.length v = 0 -> v = Vec2d.zero.
Proof.
  destruct v as [a b]. unfold Vec2d.length. simpl. intros H.
  apply sqrt_eq_0 in H; [| nra].
  assert (a = 0) by nra. assert (b = 0) by nra. subst. reflexivity.
Qed.

Lemma length_normalized (v : Vec2d.t) :
  v <> Vec2d.zero -> Vec2d.length (Vec2d.normalized v) = 1.
Proof.
  intros Hv. unfold Vec2d.normalized.
  destruct (Req_dec_T (Vec2d.length v) 0) as [H0 | Hn].
  - now apply length_eq_0 in H0.
  - assert (Hpos : 0 < Vec2d.length v) by (pose proof (length_nonneg v); lra).
    replace (Vec2d.div v (Vec2d.length v))
      with (Vec2d.scale (/ Vec2d.length v) v) by reflexivity.
    rewrite length_scale, Rabs_pos_eq by (left; now apply Rinv_0_lt_compat).
    now field.
Qed.

Lemma normalized_zero : Vec2d.normalized Vec2d.zero = Vec2d.zero.
Proof.
  unfold Vec2d.normalized.
  destruct (Req_dec_T (Vec2d.length Vec2d.zero) 0) as [_ | Hn];
    [reflexivity | now destruct Hn; apply length_zero].
Qed.

Lemma scale_zero (k : R) : Vec2d.scale k Vec2d.zero = Vec2d.zero.
Proof. unfold Vec2d.scale, Vec2d.zero. simpl. f_equal; ring. Qed.

(** A unit vector at angle [a], stretched by [k], has length [|k|]. *)
Lemma length_scale_unit (k a : R) :
  Vec2d.length (Vec2d.scale k (Vec2d.mk (cos a) (sin a))) = Rabs k.
Proof.
  rewrite length_scale.
  rewrite (length_of_square (cos a) (sin a) 1); [ring | lra |].
  pose proof (sin2_cos2 a) as H. unfold Rsqr in H. lra.
Qed.

(** ** Ball.decelerate *)

Lemma decelerate_velocity (b : Ball.t) :
  velocity (Ball.body (Ball.decelerate b)) =
  Vec2d.scale (Vec2d.length (velocity (Ball.body b)) - BALL_DECELERATION)
              (Vec2d.normalized (velocity (Ball.body b))).
Proof. reflexivity. Qed.

(** The speed after [decelerate] is the distance of the prior speed from
    [BALL_DECELERATION]. *)
Lemma decelerate_speed (b : Ball.t) :
  velocity (Ball.body b) <> Vec2d.zero ->
  Vec2d.length (velocity (Ball.body (Ball.decelerate b))) =
  Rabs (Vec2d.length (velocity (Ball.body b)) - BALL_DECELERATION).
Proof.
  intros Hv. rewrite decelerate_velocity, length_scale.
  rewrite length_normalized by assumption. ring.
Qed.

(** A ball at least as fast as [BALL_DECELERATION] loses that much speed
    and keeps its direction. *)
Lemma decelerate_fast_ball (b : Ball.t) :
  BALL_DECELERATION <= Vec2d.length (velocity (Ball.body b)) ->
  Vec2d.length (velocity (Ball.body (Ball.decelerate b))) =
    Rmax 0 (Vec2d.length (velocity (Ball.body b)) - BALL_DECELERATION) /\
  exists k, 0 <= k /\
    velocity (Ball.body (Ball.decelerate b)) =
    Vec2d.scale k (velocity (Ball.body b)).
Proof.
  intros Hfast. set (v := velocity (Ball.body b)) in *.
  assert (HBD : BALL_DECELERATION = 0.1) by reflexivity.
  assert (Hv : v <> Vec2d.zero).
  { intros E. rewrite E, length_zero in Hfast. lra. }
  split.
  - rewrite decelerate_speed by assumption. fold v.
    rewrite Rabs_pos_eq by lra. rewrite Rmax_right by lra. reflexivity.
  - exists ((Vec2d.length v - BALL_DECELERATION) / Vec2d.length v).
    assert (Hpos : 0 < Vec2d.length v) by lra.
    split.
    + apply Rmult_le_pos; [lra | left; now apply Rinv_0_lt_compat].
    + rewrite decelerate_velocity. fold v. unfold Vec2d.normalized.
      destruct (Req_dec_T (Vec2d.length v) 0) as [E | _]; [lra |].
      unfold Vec2d.scale, Vec2d.div. simpl. f_equal; field; lra.
Qed.

Lemma slow_ball_speed :
  Vec2d.length (velocity (Ball.body (ball_moving (Vec2d.mk 0.02 0)))) = 0.02.
Proof. simpl. apply length_of_square; lra. Qed.

Lemma slow_ball_decelerated :
  velocity (Ball.body (Ball.decelerate (ball_moving (Vec2d.mk 0.02 0)))) =
  Vec2d.mk (-0.08) 0.
Proof.
  rewrite decelerate_velocity, slow_ball_speed. simpl.
  unfold Vec2d.normalized.
  rewrite (length_of_square 0.02 0 0.02) by lra.
  destruct (Req_dec_T 0.02 0) as [E | _]; [lra |].
  unfold Vec2d.scale, Vec2d.div, BALL_DECELERATION. simpl. f_equal; lra.
Qed.

(** C1 (the code departs from the claim).  A ball moving East at speed
    0.02, slower than [BALL_DECELERATION], is not stopped by
    [Ball.decelerate()]: it leaves with speed 0.08, where the claim asks for
    [max(0, 0.02 - 0.1) = 0], and it moves West, so the new velocity is no
    non-negative multiple of the prior one. *)
Theorem C1_decelerate_slow_ball_reverses :
  let b := ball_moving (Vec2d.mk 0.02 0) in
  let v := velocity (Ball.body b) in
  let v' := velocity (Ball.body (Ball.decelerate b)) in
  v <> Vec2d.zero /\
  Vec2d.length v = 0.02 /\
  v' = Vec2d.mk (-0.08) 0 /\
  Vec2d.length v' = 0.08 /\
  Rmax 0 (Vec2d.length v - BALL_DECELERATION) = 0 /\
  Vec2d.length v' <> Rmax 0 (Vec2d.length v - BALL_DECELERATION) /\
  forall k, 0 <= k -> v' <> Vec2d.scale k v.
Proof.
  intros b v v'.
  assert (Hv : Vec2d.length v = 0.02) by apply slow_ball_speed.
  assert (Hv' : v' = Vec2d.mk (-0.08) 0) by apply slow_ball_decelerated.
  assert (Hl' : Vec2d.length v' = 0.08).
  { rewrite Hv'. apply length_of_square; lra. }
  assert (Hmax : Rmax 0 (Vec2d.length v - BALL_DECELERATION) = 0).
  { rewrite Hv. unfold BALL_DECELERATION. apply Rmax_left. lra. }
  repeat split; try assumption.
  - intros E. rewrite E, length_zero in Hv. lra.
  - rewrite Hl', Hmax. lra.
  - intros k Hk E. rewrite Hv' in E. unfold v, b, Vec2d.scale in E.
    simpl in E. injection E as E1. nra.
Qed.

(** C8.  [Ball.decelerate()] on a ball whose velocity is the zero vector
    changes nothing: [normalized()] of the zero vector is the zero vector,
    so the velocity stays the zero vector and the ball is the same. *)
Theorem C8_decelerate_at_rest_is_noop (b : Ball.t) :
  velocity (Ball.body b) = Vec2d.zero ->
  Ball.decelerate b = b /\
  velocity (Ball.body (Ball.decelerate b)) = Vec2d.zero.
Proof.
  intros Hv.
  assert (E : velocity (Ball.body (Ball.decelerate b)) = Vec2d.zero).
  { rewrite decelerate_velocity, Hv, normalized_zero. apply scale_zero. }
  split; [| exact E].
  destruct b as [i [id m mo p v a w] s].
  unfold Ball.decelerate, Ball.set_body, set_velocity in *. simpl in *.
  rewrite E. now subst v.
Qed.

Lemma C8_decelerate_at_rest_witness :
  velocity (Ball.body (ball_moving Vec2d.zero)) = Vec2d.zero /\
  Ball.decelerate (ball_moving Vec2d.zero) = ball_moving Vec2d.zero /\
  velocity (Ball.body (Ball.decelerate (ball_moving Vec2d.zero))) = Vec2d.zero.
Proof.
  split; [reflexivity |].
  apply (C8_decelerate_at_rest_is_noop (ball_moving Vec2d.zero)).
  reflexivity.
Defined.

(** ** Car.update *)

Lemma speed_nonneg (c : Car.t) : 0 <= Car.speed c.
Proof. apply length_nonneg. Qed.

Lemma push_reverse (c : Car.t) (j : Vec2d.t) :
  Car.reverse (Car.push c j) = Car.reverse c.
Proof. reflexivity. Qed.

Lemma push_angle (c : Car.t) (j : Vec2d.t) :
  angle (Car.body (Car.push c j)) = angle (Car.body c).
Proof. reflexivity. Qed.

(** An impulse along the local x axis moves the velocity along the forward
    direction, by the impulse over the mass. *)
Lemma push_along_forward (c : Car.t) (j : Vec2d.t) :
  Vec2d.y j = 0 ->
  velocity (Car.body (Car.push c j)) =
  Vec2d.add (velocity (Car.body c))
            (Vec2d.scale (Vec2d.x j / mass (Car.body c))
                         (Car.forward_direction c)).
Proof.
  intros Hy. destruct j as [jx jy]. simpl in Hy. subst jy.
  unfold Car.push, Car.forward_direction, apply_impulse_at_local_point,
    Vec2d.add, Vec2d.scale, Vec2d.rotated.
  simpl. f_equal; unfold Rdiv; ring.
Qed.

(** The flag after the throttle chain: the old one, or the one the key
    pressed asks for, and then only below speed 5. *)
Lemma throttle_reverse (keys : Keys) (c : Car.t) :
  Car.reverse (Car.throttle keys c) = Car.reverse c \/
  (K_UP keys = true /\ Car.reverse c <> 1%Z /\
   Car.speed (Car.throttle keys c) < 5 /\
   Car.throttle keys c =
     Car.set_reverse
       (Car.push c (Vec2d.scale BRAKE_SPEED Car.impulse)) 1) \/
  (K_UP keys = false /\ K_DOWN keys = true /\ Car.reverse c <> (-1)%Z /\
   Car.speed (Car.throttle keys c) < 5 /\
   Car.throttle keys c =
     Car.set_reverse
       (Car.push c (Vec2d.scale BRAKE_SPEED (Vec2d.neg Car.impulse))) (-1)).
Proof.
  unfold Car.throttle.
  destruct (K_UP keys) eqn:Hup.
  - destruct (Z.eqb_spec (Car.reverse c) 1) as [E1 | N1].
    + left. destruct (ltb _ 5); simpl; congruence.
    + unfold ltb.
      destruct (Rlt_dec (Car.speed (Car.push c
                  (Vec2d.scale BRAKE_SPEED Car.impulse))) 5) as [Hlt | Hge].
      * right; left. repeat split; auto.
      * left. reflexivity.
  - destruct (K_DOWN keys) eqn:Hdown.
    + destruct (Z.eqb_spec (Car.reverse c) (-1)) as [E1 | N1].
      * left. destruct (ltb _ 5); simpl; congruence.
      * unfold ltb.
        destruct (Rlt_dec (Car.speed (Car.push c
                    (Vec2d.scale BRAKE_SPEED (Vec2d.neg Car.impulse)))) 5)
          as [Hlt | Hge].
        -- right; right. repeat split; auto.
        -- left. reflexivity.
    + left. destruct (K_SPACE keys).
      * destruct (Car.reverse c =? -1)%Z; [reflexivity |].
        destruct (Car.reverse c =? 1)%Z; reflexivity.
      * reflexivity.
Qed.

Lemma throttle_angle (keys : Keys) (c : Car.t) :
  angle (Car.body (Car.throttle keys c)) = angle (Car.body c).
Proof.
  unfold Car.throttle.
  repeat match goal with
         | |- context [if ?b then _ else _] => destruct b
         end; reflexivity.
Qed.

Lemma update_reverse (keys : Keys) (c : Car.t) :
  Car.reverse (Car.update keys c) = Car.reverse (Car.throttle keys c).
Proof.
  unfold Car.update, Car.reset_drift, Car.turn.
  destruct (K_LEFT keys); [reflexivity |].
  destruct (K_RIGHT keys); reflexivity.
Qed.

Lemma turn_speed (keys : Keys) (c : Car.t) :
  Car.speed (Car.turn keys c) = Car.speed c /\
  Car.reverse (Car.turn keys c) = Car.reverse c /\
  angle (Car.body (Car.turn keys c)) = angle (Car.body c).
Proof.
  unfold Car.turn.
  destruct (K_LEFT keys); [repeat split |].
  destruct (K_RIGHT keys); repeat split.
Qed.

Lemma update_reverse_ok (keys : Keys) (c : Car.t) :
  reverse_ok c -> reverse_ok (Car.update keys c).
Proof.
  unfold reverse_ok. intros Hc. rewrite update_reverse.
  destruct (throttle_reverse keys c)
    as [E | [(_ & _ & _ & E) | (_ & _ & _ & _ & E)]];
    rewrite E; simpl; auto.
Qed.

Lemma updates_reverse_ok (ks : list Keys) (c : Car.t) :
  reverse_ok c ->
  reverse_ok (fold_left (fun c k => Car.update k c) ks c).
Proof.
  revert c. induction ks as [| k ks IH]; intros c Hc; simpl.
  - exact Hc.
  - apply IH. now apply update_reverse_ok.
Qed.

(** C10.  A car is built with reverse flag [+1], and after any sequence of
    [update] calls, whatever the keys held at each call, the flag is [+1]
    or [-1]. *)
Theorem C10_reverse_is_plus_or_minus_one
    (x y a : R) (space space' : Space) (fresh : nat) (c : Car.t)
    (ks : list Keys) :
  Car.init x y space a fresh = Some (c, space') ->
  Car.reverse c = 1%Z /\
  (Car.reverse (fold_left (fun c k => Car.update k c) ks c) = 1%Z \/
   Car.reverse (fold_left (fun c k => Car.update k c) ks c) = (-1)%Z).
Proof.
  unfold Car.init. intros Hinit.
  destruct (Space_add _ _) as [sp |]; [| discriminate].
  injection Hinit as Hc _. subst c.
  split; [reflexivity |].
  apply updates_reverse_ok. left. reflexivity.
Qed.

Lemma C10_reverse_witness :
  exists c sp,
    Car.init 0 0 Space_init 0 0 = Some (c, sp) /\
    Car.reverse c = 1%Z /\
    (Car.reverse (fold_left (fun c k => Car.update k c) [up_key; no_keys] c)
       = 1%Z \/
     Car.reverse (fold_left (fun c k => Car.update k c) [up_key; no_keys] c)
       = (-1)%Z).
Proof.
  eexists. eexists. split; [reflexivity |].
  eapply (C10_reverse_is_plus_or_minus_one 0 0 0 Space_init _ 0%nat).
  reflexivity.
Defined.

Lemma forward_direction_unit (c : Car.t) :
  Vec2d.length (Car.forward_direction c) = 1.
Proof.
  unfold Car.forward_direction. apply length_of_square; [lra |].
  pose proof (sin2_cos2 (angle (Car.body c))) as H. unfold Rsqr in H. lra.
Qed.

Lemma update_forward_direction (keys : Keys) (c : Car.t) :
  Car.forward_direction (Car.update keys c) = Car.forward_direction c.
Proof.
  unfold Car.forward_direction, Car.update, Car.reset_drift. simpl.
  destruct (turn_speed keys (Car.throttle keys c)) as (_ & _ & Ea).
  now rewrite Ea, throttle_angle.
Qed.

(** The last assignment of [update]. *)
Lemma update_velocity (keys : Keys) (c : Car.t) :
  velocity (Car.body (Car.update keys c)) =
  Vec2d.scale (Rmin (Car.speed (Car.throttle keys c)) MAX_SPEED)
    (Vec2d.scale (IZR (Car.reverse (Car.update keys c)))
                 (Car.forward_direction c)).
Proof.
  rewrite update_reverse.
  unfold Car.update, Car.reset_drift. simpl.
  destruct (turn_speed keys (Car.throttle keys c)) as (Es & Er & _).
  now rewrite Es, Er.
Qed.

Lemma IZR_reverse_abs (c : Car.t) :
  reverse_ok c -> Rabs (IZR (Car.reverse c)) = 1.
Proof.
  intros [E | E]; rewrite E.
  - apply Rabs_pos_eq. lra.
  - rewrite Rabs_left; lra.
Qed.

Lemma update_speed (keys : Keys) (c : Car.t) :
  reverse_ok c ->
  Car.speed (Car.update keys c) =
  Rmin (Car.speed (Car.throttle keys c)) MAX_SPEED.
Proof.
  intros Hok. unfold Car.speed at 1.
  rewrite update_velocity, !length_scale, forward_direction_unit.
  rewrite IZR_reverse_abs by now apply update_reverse_ok.
  rewrite Rabs_pos_eq; [ring |].
  apply Rmin_glb; [apply speed_nonneg | unfold MAX_SPEED; lra].
Qed.

(** C3.  After [Car.update], for any keys and any prior state of the car
    (its reverse flag being [+1] or [-1]), the velocity is
    [forward_direction * reverse * min(speed, MAX_SPEED)], with [speed] the
    speed at that last assignment (the one the throttle chain left): it has
    no component across the forward direction, and its magnitude is
    [min(speed, MAX_SPEED)], at most [MAX_SPEED]. *)
Theorem C3_update_velocity_along_forward (keys : Keys) (c : Car.t) :
  reverse_ok c ->
  let c' := Car.update keys c in
  let s := Car.speed (Car.throttle keys c) in
  velocity (Car.body c') =
    Vec2d.scale (Rmin s MAX_SPEED)
      (Vec2d.scale (IZR (Car.reverse c')) (Car.forward_direction c)) /\
  Car.forward_direction c' = Car.forward_direction c /\
  Vec2d.cross (velocity (Car.body c')) (Car.forward_direction c') = 0 /\
  Car.speed c' = Rmin s MAX_SPEED /\
  Car.speed c' <= MAX_SPEED.
Proof.
  intros Hok c' s. subst c' s.
  split; [apply update_velocity |].
  split; [apply update_forward_direction |].
  split; [| split].
  - rewrite update_forward_direction, update_velocity.
    unfold Vec2d.cross, Vec2d.scale. simpl. ring.
  - now apply update_speed.
  - rewrite update_speed by assumption. apply Rmin_r.
Qed.

Lemma C3_update_velocity_witness :
  reverse_ok (car_moving 1 (Vec2d.mk 3 4)) /\
  Vec2d.cross (velocity (Car.body (Car.update up_key
                                     (car_moving 1 (Vec2d.mk 3 4)))))
              (Car.forward_direction
                 (Car.update up_key (car_moving 1 (Vec2d.mk 3 4)))) = 0 /\
  Car.speed (Car.update up_key (car_moving 1 (Vec2d.mk 3 4))) <= MAX_SPEED.
Proof.
  assert (Hok : reverse_ok (car_moving 1 (Vec2d.mk 3 4)))
    by (left; reflexivity).
  split; [exact Hok |].
  pose proof (C3_update_velocity_along_forward up_key
                (car_moving 1 (Vec2d.mk 3 4)) Hok) as H.
  simpl in H. destruct H as (_ & _ & Hc & _ & Hs).
  split; assumption.
Defined.

(** ** The reverse flag and the speed *)

Lemma length_lt_inv (v : Vec2d.t) (l : R) :
  0 <= l -> Vec2d.length v < l ->
  Vec2d.x v * Vec2d.x v + Vec2d.y v * Vec2d.y v < l * l.
Proof.
  intros Hl H. unfold Vec2d.length in H.
  destruct (Rlt_le_dec (Vec2d.x v * Vec2d.x v + Vec2d.y v * Vec2d.y v) (l * l))
    as [Hlt | Hge]; [exact Hlt |].
  apply sqrt_le_1_alt in Hge. rewrite sqrt_square in Hge by assumption. lra.
Qed.

Lemma length_lt_intro (v : Vec2d.t) (l : R) :
  0 <= l -> Vec2d.x v * Vec2d.x v + Vec2d.y v * Vec2d.y v < l * l ->
  Vec2d.length v < l.
Proof.
  intros Hl H. unfold Vec2d.length.
  rewrite <- (sqrt_square l) by assumption.
  apply sqrt_lt_1_alt. split; [nra | exact H].
Qed.

Lemma brake_bound (p q fx fy k : R) :
  fx * fx + fy * fy = 1 -> -5 <= k <= 5 -> p * p + q * q < 5 * 5 ->
  (p - fx * k) * (p - fx * k) + (q - fy * k) * (q - fy * k) < 10 * 10.
Proof.
  intros Hunit Hk Hw.
  pose proof (Rle_0_sqr (p * fy - q * fx)) as Hsq. unfold Rsqr in Hsq.
  assert (E : (p * fx + q * fy) * (p * fx + q * fy) +
              (p * fy - q * fx) * (p * fy - q * fx) =
              (p * p + q * q) * (fx * fx + fy * fy)) by ring.
  rewrite Hunit in E.
  remember (p * fx + q * fy) as d eqn:Ed.
  assert (Hd : -5 < d < 5) by nra.
  replace ((p - fx * k) * (p - fx * k) + (q - fy * k) * (q - fy * k))
    with (p * p + q * q - 2 * k * d + k * k * (fx * fx + fy * fy))
    by (subst d; ring).
  rewrite Hunit. nra.
Qed.

(** If a velocity, moved by [k] along a unit vector, is shorter than 5, and
    [|k| <= 5], the velocity itself is shorter than 10. *)
Lemma speed_before_impulse (v f : Vec2d.t) (k : R) :
  Vec2d.length f = 1 -> Rabs k <= 5 ->
  Vec2d.length (Vec2d.add v (Vec2d.scale k f)) < 5 ->
  Vec2d.length v < 10.
Proof.
  intros Hf Hk Hw.
  apply length_lt_inv in Hw; [| lra].
  assert (Hunit : Vec2d.x f * Vec2d.x f + Vec2d.y f * Vec2d.y f = 1).
  { unfold Vec2d.length in Hf.
    apply (f_equal Rsqr) in Hf. rewrite Rsqr_sqrt in Hf by nra.
    unfold Rsqr in Hf. lra. }
  assert (Hk' : -5 <= k <= 5)
    by (unfold Rabs in Hk; destruct (Rcase_abs k); lra).
  apply length_lt_intro; [lra |].
  destruct v as [vx vy], f as [fx fy]. simpl in *.
  pose proof (brake_bound (vx + fx * k) (vy + fy * k) fx fy k Hunit Hk' Hw)
    as H.
  replace (vx + fx * k - fx * k) with vx in H by ring.
  replace (vy + fy * k - fy * k) with vy in H by ring.
  exact H.
Qed.

Lemma set_reverse_speed (c : Car.t) (r : Z) :
  Car.speed (Car.set_reverse c r) = Car.speed c.
Proof. reflexivity. Qed.

(** C2, as the code has it.  The reverse flag changes value in
    [Car.update] only if the speed measured by [update] itself, after the
    throttle impulse of that call has been added to the velocity, is below
    5; for a car of mass [CAR_MASS] the speed before the call is then below
    10. *)
Theorem C2_reverse_changes_only_when_slow_after_impulse
    (keys : Keys) (c : Car.t) :
  mass (Car.body c) = CAR_MASS ->
  Car.reverse (Car.update keys c) <> Car.reverse c ->
  Car.speed (Car.throttle keys c) < 5 /\ Car.speed c < 10.
Proof.
  intros Hm Hchg. rewrite update_reverse in Hchg.
  destruct (throttle_reverse keys c)
    as [E | [(_ & _ & Hs & E) | (_ & _ & _ & Hs & E)]];
    [contradiction | |]; (split; [exact Hs |]);
    rewrite E, set_reverse_speed in Hs; unfold Car.speed in Hs;
    rewrite push_along_forward in Hs
      by (unfold Car.impulse, CAR_SPEED, BRAKE_SPEED; simpl; lra);
    apply speed_before_impulse in Hs;
    try exact Hs; try apply forward_direction_unit;
    rewrite Hm; unfold Car.impulse, CAR_SPEED, BRAKE_SPEED, CAR_MASS; simpl.
  - rewrite Rabs_pos_eq; lra.
  - rewrite Rabs_left; lra.
Qed.

Lemma car_moving_forward (r : Z) (v : Vec2d.t) :
  Car.forward_direction (car_moving r v) = Vec2d.mk 1 0.
Proof.
  unfold Car.forward_direction. simpl. now rewrite cos_0, sin_0.
Qed.

Lemma ltb_true (a b : R) : a < b -> ltb a b = true.
Proof. intros H. unfold ltb. destruct (Rlt_dec a b); [reflexivity | lra]. Qed.

Lemma ltb_false (a b : R) : b <= a -> ltb a b = false.
Proof. intros H. unfold ltb. destruct (Rlt_dec a b); [lra | reflexivity]. Qed.

(** A car reversing at speed 9 and braked by the up key is left with
    speed 4 by the impulse. *)
Lemma reversing_car_braked_speed :
  Car.speed (Car.push (car_moving (-1) (Vec2d.mk (-9) 0))
                      (Vec2d.scale BRAKE_SPEED Car.impulse)) = 4.
Proof.
  unfold Car.speed. rewrite push_along_forward
    by (unfold Car.impulse, CAR_SPEED, BRAKE_SPEED; simpl; lra).
  rewrite car_moving_forward.
  unfold Vec2d.add, Vec2d.scale, Car.impulse, CAR_SPEED, BRAKE_SPEED.
  simpl. unfold CAR_MASS. apply length_of_square; lra.
Qed.

Lemma reversing_car_speed :
  Car.speed (car_moving (-1) (Vec2d.mk (-9) 0)) = 9.
Proof. unfold Car.speed. simpl. apply length_of_square; lra. Qed.

Lemma reversing_car_flips :
  Car.reverse (Car.update up_key (car_moving (-1) (Vec2d.mk (-9) 0))) = 1%Z.
Proof.
  rewrite update_reverse. unfold Car.throttle.
  change (K_UP up_key) with true.
  change (Car.reverse (car_moving (-1) (Vec2d.mk (-9) 0)) =? 1)%Z with false.
  cbv iota. rewrite ltb_true by (rewrite reversing_car_braked_speed; lra).
  reflexivity.
Qed.

(** C2, against the claim as written.  A car reversing at speed 9 (reverse
    flag [-1]) that receives the up key has pre-update speed 9, not below 5,
    and yet leaves [Car.update] with reverse flag [+1]. *)
Lemma C2_reverse_flips_at_speed_9 :
  let c := car_moving (-1) (Vec2d.mk (-9) 0) in
  Car.speed c = 9 /\
  5 <= Car.speed c /\
  Car.reverse c = (-1)%Z /\
  Car.reverse (Car.update up_key c) = 1%Z /\
  Car.reverse (Car.update up_key c) <> Car.reverse c.
Proof.
  intros c. unfold c.
  rewrite reversing_car_speed, reversing_car_flips.
  repeat split; try lra. simpl. discriminate.
Qed.

Lemma C2_reverse_changes_witness :
  mass (Car.body (car_moving (-1) (Vec2d.mk (-9) 0))) = CAR_MASS /\
  Car.reverse (Car.update up_key (car_moving (-1) (Vec2d.mk (-9) 0))) <>
    Car.reverse (car_moving (-1) (Vec2d.mk (-9) 0)) /\
  Car.speed (Car.throttle up_key (car_moving (-1) (Vec2d.mk (-9) 0))) < 5 /\
  Car.speed (car_moving (-1) (Vec2d.mk (-9) 0)) < 10.
Proof.
  assert (Hm : mass (Car.body (car_moving (-1) (Vec2d.mk (-9) 0))) = CAR_MASS)
    by reflexivity.
  assert (Hchg : Car.reverse (Car.update up_key
                                (car_moving (-1) (Vec2d.mk (-9) 0))) <>
                 Car.reverse (car_moving (-1) (Vec2d.mk (-9) 0))).
  { rewrite reversing_car_flips. simpl. discriminate. }
  split; [exact Hm |]. split; [exact Hchg |].
  exact (C2_reverse_changes_only_when_slow_after_impulse
           up_key (car_moving (-1) (Vec2d.mk (-9) 0)) Hm Hchg).
Defined.

(** ** Free deceleration *)

Lemma throttle_idle (keys : Keys) (c : Car.t) :
  K_UP keys = false -> K_DOWN keys = false -> K_SPACE keys = false ->
  Car.throttle keys c =
  Car.set_body c
    (set_velocity (Car.body c)
       (Vec2d.scale (IZR (Car.reverse c))
          (Vec2d.scale (Car.speed c - FREE_DECELERATION)
             (Car.forward_direction c)))).
Proof.
  intros Hup Hdown Hspace. unfold Car.throttle.
  now rewrite Hup, Hdown, Hspace.
Qed.

(** With no throttle key, the speed the throttle chain leaves is the
    distance of the prior speed from [FREE_DECELERATION]. *)
Lemma throttle_idle_speed (keys : Keys) (c : Car.t) :
  K_UP keys = false -> K_DOWN keys = false -> K_SPACE keys = false ->
  reverse_ok c ->
  Car.speed (Car.throttle keys c) = Rabs (Car.speed c - FREE_DECELERATION) /\
  Car.reverse (Car.throttle keys c) = Car.reverse c.
Proof.
  intros Hup Hdown Hspace Hok.
  rewrite throttle_idle by assumption. split; [| reflexivity].
  unfold Car.speed at 1. simpl.
  rewrite !length_scale, forward_direction_unit, IZR_reverse_abs by assumption.
  ring.
Qed.

Lemma update_idle_speed (keys : Keys) (c : Car.t) :
  K_UP keys = false -> K_DOWN keys = false -> K_SPACE keys = false ->
  reverse_ok c ->
  Car.speed (Car.update keys c) =
  Rmin (Rabs (Car.speed c - FREE_DECELERATION)) MAX_SPEED.
Proof.
  intros Hup Hdown Hspace Hok.
  rewrite update_speed by assumption.
  now destruct (throttle_idle_speed keys c Hup Hdown Hspace Hok) as [-> _].
Qed.

(** C4, as the code has it.  With no throttle key and no turn key, a car
    whose prior speed is at least [FREE_DECELERATION] leaves [Car.update]
    with speed [min(prior speed - FREE_DECELERATION, MAX_SPEED)], its
    velocity being that speed along [forward_direction * reverse]; the
    reverse flag is unchanged and the angular velocity is 0. *)
Theorem C4_idle_update_decelerates (keys : Keys) (c : Car.t) :
  K_UP keys = false -> K_DOWN keys = false -> K_SPACE keys = false ->
  K_LEFT keys = false -> K_RIGHT keys = false ->
  reverse_ok c ->
  FREE_DECELERATION <= Car.speed c ->
  let s' := Rmin (Car.speed c - FREE_DECELERATION) MAX_SPEED in
  Car.speed (Car.update keys c) = s' /\
  0 <= s' /\
  velocity (Car.body (Car.update keys c)) =
    Vec2d.scale s'
      (Vec2d.scale (IZR (Car.reverse c)) (Car.forward_direction c)) /\
  Car.reverse (Car.update keys c) = Car.reverse c /\
  angular_velocity (Car.body (Car.update keys c)) = 0.
Proof.
  intros Hup Hdown Hspace Hleft Hright Hok Hfast s'. subst s'.
  destruct (throttle_idle_speed keys c Hup Hdown Hspace Hok) as [Es Er].
  assert (Eabs : Rabs (Car.speed c - FREE_DECELERATION) =
                 Car.speed c - FREE_DECELERATION)
    by (apply Rabs_pos_eq; lra).
  split; [| split; [| split; [| split]]].
  - rewrite update_idle_speed by assumption. now rewrite Eabs.
  - apply Rmin_glb; [lra | unfold MAX_SPEED; lra].
  - rewrite update_velocity, update_reverse, Es, Er, Eabs. reflexivity.
  - now rewrite update_reverse.
  - unfold Car.update, Car.reset_drift, Car.turn.
    now rewrite Hleft, Hright.
Qed.

Lemma car_at_speed (r : Z) (s : R) :
  0 <= s -> Car.speed (car_moving r (Vec2d.mk s 0)) = s.
Proof. intros Hs. unfold Car.speed. simpl. apply length_of_square; lra. Qed.

Lemma C4_idle_update_witness :
  Car.speed (Car.update no_keys (car_moving 1 (Vec2d.mk 10 0))) = 9.5 /\
  velocity (Car.body (Car.update no_keys (car_moving 1 (Vec2d.mk 10 0)))) =
    Vec2d.mk 9.5 0.
Proof.
  assert (Hs : Car.speed (car_moving 1 (Vec2d.mk 10 0)) = 10)
    by (apply car_at_speed; lra).
  assert (Hok : reverse_ok (car_moving 1 (Vec2d.mk 10 0)))
    by (left; reflexivity).
  assert (Hfast : FREE_DECELERATION <=
                  Car.speed (car_moving 1 (Vec2d.mk 10 0)))
    by (rewrite Hs; unfold FREE_DECELERATION; lra).
  destruct (C4_idle_update_decelerates no_keys
              (car_moving 1 (Vec2d.mk 10 0))
              eq_refl eq_refl eq_refl eq_refl eq_refl Hok Hfast)
    as (E1 & _ & E2 & _).
  rewrite Hs in E1, E2.
  assert (Emin : Rmin (10 - FREE_DECELERATION) MAX_SPEED = 9.5)
    by (unfold FREE_DECELERATION, MAX_SPEED; rewrite Rmin_left; lra).
  rewrite Emin in E1, E2. split; [exact E1 |].
  rewrite E2, car_moving_forward. unfold Vec2d.scale. simpl.
  f_equal; lra.
Defined.

(** C4, against the claim as written.  (1) A car at rest with no key held
    leaves [Car.update] with speed 0.5, where the claim asks for
    [max(0, 0 - 0.5) = 0].  (2) A car at speed 300 with no key held leaves
    with speed [MAX_SPEED = 200], where the claim asks for 299.5. *)
Lemma C4_idle_speed_differs :
  (Car.speed (car_moving 1 Vec2d.zero) = 0 /\
   Car.speed (Car.update no_keys (car_moving 1 Vec2d.zero)) = 0.5 /\
   Car.speed (Car.update no_keys (car_moving 1 Vec2d.zero)) <>
     Rmax 0 (Car.speed (car_moving 1 Vec2d.zero) - FREE_DECELERATION)) /\
  (Car.speed (car_moving 1 (Vec2d.mk 300 0)) = 300 /\
   Car.speed (Car.update no_keys (car_moving 1 (Vec2d.mk 300 0))) = 200 /\
   Car.speed (Car.update no_keys (car_moving 1 (Vec2d.mk 300 0))) <>
     Rmax 0 (Car.speed (car_moving 1 (Vec2d.mk 300 0)) - FREE_DECELERATION)).
Proof.
  assert (H0 : Car.speed (car_moving 1 Vec2d.zero) = 0)
    by (apply (car_at_speed 1 0); lra).
  assert (H300 : Car.speed (car_moving 1 (Vec2d.mk 300 0)) = 300)
    by (apply car_at_speed; lra).
  assert (E0 : Car.speed (Car.update no_keys (car_moving 1 Vec2d.zero)) = 0.5).
  { rewrite update_idle_speed by (reflexivity || (left; reflexivity)).
    rewrite H0. unfold FREE_DECELERATION, MAX_SPEED.
    rewrite Rabs_left by lra. rewrite Rmin_left; lra. }
  assert (E300 : Car.speed (Car.update no_keys
                              (car_moving 1 (Vec2d.mk 300 0))) = 200).
  { rewrite update_idle_speed by (reflexivity || (left; reflexivity)).
    rewrite H300. unfold FREE_DECELERATION, MAX_SPEED.
    rewrite Rabs_pos_eq by lra. rewrite Rmin_right; lra. }
  rewrite E0, E300, H0, H300. unfold FREE_DECELERATION.
  repeat split; try reflexivity.
  - rewrite Rmax_left; lra.
  - rewrite Rmax_right; lra.
Qed.

(** ** Space membership *)

Lemma contains_In (sp : Space) (id : nat) :
  contains sp id = true <-> In id (members sp).
Proof.
  unfold contains. rewrite existsb_exists. split.
  - intros (m & Hin & Heq). apply Nat.eqb_eq in Heq. now subst m.
  - intros Hin. exists id. split; [exact Hin | apply Nat.eqb_refl].
Qed.

Lemma contains_not_In (sp : Space) (id : nat) :
  contains sp id = false <-> ~ In id (members sp).
Proof.
  rewrite <- contains_In. destruct (contains sp id); split; congruence.
Qed.

Lemma Space_add_ok (ids : list nat) : forall sp : Space,
  NoDup ids ->
  (forall id, In id ids -> ~ In id (members sp)) ->
  exists sp',
    Space_add sp ids = Some sp' /\
    (forall m, In m (members sp') <-> In m ids \/ In m (members sp)).
Proof.
  induction ids as [| id rest IH]; intros sp Hnd Hfresh; simpl.
  - exists sp. split; [reflexivity |]. intros m. tauto.
  - inversion Hnd as [| ? ? Hnotin Hnd']; subst.
    unfold Space_add1.
    assert (Hc : contains sp id = false)
      by (apply contains_not_In, Hfresh; now left).
    rewrite Hc.
    destruct (IH (mkSpace (id :: members sp) (static_segments sp)) Hnd')
      as (sp' & Hadd & Hmem).
    + intros i Hi [E | Hin]; simpl in *.
      * subst i. contradiction.
      * apply (Hfresh i); [now right | exact Hin].
    + exists sp'. split; [exact Hadd |].
      intros m. rewrite Hmem. simpl. tauto.
Qed.

Lemma Space_remove_ok (ids : list nat) : forall sp : Space,
  NoDup ids ->
  (forall id, In id ids -> In id (members sp)) ->
  exists sp',
    Space_remove sp ids = Some sp' /\
    (forall m, In m (members sp') <-> In m (members sp) /\ ~ In m ids).
Proof.
  induction ids as [| id rest IH]; intros sp Hnd Hin; simpl.
  - exists sp. split; [reflexivity |]. intros m. tauto.
  - inversion Hnd as [| ? ? Hnotin Hnd']; subst.
    unfold Space_remove1.
    assert (Hc : contains sp id = true)
      by (apply contains_In, Hin; now left).
    rewrite Hc.
    set (sp1 := mkSpace (filter (fun m => negb (id =? m)%nat) (members sp))
                        (static_segments sp)).
    assert (Hmem1 : forall m, In m (members sp1) <->
                              In m (members sp) /\ m <> id).
    { intros m. unfold sp1. simpl. rewrite filter_In, negb_true_iff.
      rewrite Nat.eqb_neq. intuition congruence. }
    destruct (IH sp1 Hnd') as (sp' & Hrem & Hmem).
    + intros i Hi. apply Hmem1. split; [apply Hin; now right |].
      intros E. subst i. contradiction.
    + exists sp'. split; [exact Hrem |].
      intros m. rewrite Hmem, Hmem1. intuition congruence.
Qed.

Lemma Space_remove_app (l1 l2 : list nat) : forall sp : Space,
  Space_remove sp (l1 ++ l2) =
  (sp' <- Space_remove sp l1 ;; Space_remove sp' l2).
Proof.
  induction l1 as [| id rest IH]; intros sp; simpl; [reflexivity |].
  destruct (Space_remove1 sp id) as [sp1 |]; [apply IH | reflexivity].
Qed.

Lemma remove_cars_ids (cs : list Car.t) : forall sp : Space,
  Game.remove_cars sp cs = Space_remove sp (flat_map car_ids cs).
Proof.
  induction cs as [| c rest IH]; intros sp; [reflexivity |].
  cbn [Game.remove_cars flat_map]. rewrite Space_remove_app.
  unfold car_ids at 1.
  destruct (Space_remove sp _) as [sp1 |]; simpl; [apply IH | reflexivity].
Qed.

(** [reset] on a game that holds its objects: out of the space with all of
    them, then [addObjects]. *)
Lemma reset_unfold (g : Game.t) (b : Ball.t) (cs : list Car.t) :
  Game.ball g = Some b -> Game.cars g = Some cs ->
  Game.reset g =
  (sp <- Space_remove (Game.gameSpace g) (object_ids b cs) ;;
   Game.addObjects (Game.set_gameSpace g sp)).
Proof.
  intros Hb Hc. unfold Game.reset, object_ids.
  rewrite Hb, Hc, Space_remove_app. cbn [bind].
  rewrite remove_cars_ids.
  destruct (Space_remove (Game.gameSpace g) (flat_map car_ids cs));
    reflexivity.
Qed.

(** ** addObjects and reset *)

Lemma pair_fresh (sp : Space) (n : nat) :
  (forall m, In m (members sp) -> (m < n)%nat) ->
  exists sp',
    Space_add sp [n; S n] = Some sp' /\
    (forall m, In m (members sp') <-> m = n \/ m = S n \/ In m (members sp)).
Proof.
  intros Hlt.
  destruct (Space_add_ok [n; S n] sp) as (sp' & Hadd & Hmem).
  - repeat constructor; simpl; intuition lia.
  - intros id [E | [E | []]] Hin; apply Hlt in Hin; lia.
  - exists sp'. split; [exact Hadd |].
    intros m. rewrite Hmem. simpl. intuition.
Qed.

Lemma Ball_init_ok (x y : R) (sp : Space) (j : Vec2d.t) (n : nat) :
  (forall m, In m (members sp) -> (m < n)%nat) ->
  exists b sp',
    Ball.init x y sp j n = Some (b, sp') /\
    body_id (Ball.body b) = n /\ shape_id (Ball.shape b) = S n /\
    (forall m, In m (members sp') <-> m = n \/ m = S n \/ In m (members sp)).
Proof.
  intros Hlt. destruct (pair_fresh sp n Hlt) as (sp' & Hadd & Hmem).
  unfold Ball.init. cbn [body_id shape_id set_position Body_init].
  rewrite Hadd. eexists. exists sp'. repeat split; apply Hmem.
Qed.

Lemma Car_init_ok (x y : R) (sp : Space) (a : R) (n : nat) :
  (forall m, In m (members sp) -> (m < n)%nat) ->
  exists c sp',
    Car.init x y sp a n = Some (c, sp') /\
    body_id (Car.body c) = n /\ shape_id (Car.shape c) = S n /\
    (forall m, In m (members sp') <-> m = n \/ m = S n \/ In m (members sp)).
Proof.
  intros Hlt. destruct (pair_fresh sp n Hlt) as (sp' & Hadd & Hmem).
  unfold Car.init. cbn [body_id shape_id set_position set_angle Body_init].
  rewrite Hadd. eexists. exists sp'. repeat split; apply Hmem.
Qed.

(** What [addObjects] leaves of the game, when it returns: the scores and
    flags as they were, the objects at their spawn poses. *)
Lemma addObjects_inv (g g' : Game.t) :
  Game.addObjects g = Some g' ->
  Game.leftscore g' = Game.leftscore g /\
  Game.rightscore g' = Game.rightscore g /\
  Game.walls g' = Game.walls g /\
  Game.exit g' = Game.exit g /\
  Game.next_id g' = (Game.next_id g + 6)%nat /\
  poses g' = Some spawn_poses.
Proof.
  unfold Game.addObjects, Ball.init, Car.init. intros H.
  destruct (Space_add (Game.gameSpace g) _) as [sp1 |]; [| discriminate].
  cbn [bind] in H.
  destruct (Space_add sp1 _) as [sp2 |]; [| discriminate].
  cbn [bind] in H.
  destruct (Space_add sp2 _) as [sp3 |]; [| discriminate].
  cbn [bind] in H.
  injection H as H. subst g'. repeat split.
Qed.

(** In a game whose space only holds identities below the counter,
    [addObjects] returns, and the match is in play. *)
Lemma addObjects_ok (g : Game.t) :
  (forall m, In m (members (Game.gameSpace g)) -> (m < Game.next_id g)%nat) ->
  exists g', Game.addObjects g = Some g' /\ in_play g'.
Proof.
  intros Hlt. set (n := Game.next_id g).
  destruct (Ball_init_ok (Vec2d.x BALL_POS) (Vec2d.y BALL_POS)
              (Game.gameSpace g) Vec2d.zero n Hlt)
    as (b & sp1 & Hb & Hb1 & Hb2 & M1).
  destruct (Car_init_ok ((FIELD_WIDTH + GOAL_DEPTH) / 3) (FIELD_HEIGHT / 2)
              sp1 0 (n + 2)) as (c1 & sp2 & Hc1 & Hc11 & Hc12 & M2).
  { intros m Hm. apply M1 in Hm. destruct Hm as [E | [E | Hm]];
      [lia | lia | apply Hlt in Hm; fold n in Hm; lia]. }
  destruct (Car_init_ok (2 * (FIELD_WIDTH + GOAL_DEPTH) / 3)
              (FIELD_HEIGHT / 2 + 50) sp2 180 (n + 4))
    as (c2 & sp3 & Hc2 & Hc21 & Hc22 & M3).
  { intros m Hm. apply M2 in Hm. rewrite M1 in Hm.
    destruct Hm as [E | [E | [E | [E | Hm]]]]; try lia.
    apply Hlt in Hm. fold n in Hm. lia. }
  unfold Game.addObjects. fold n. rewrite Hb. cbn [bind].
  rewrite Hc1. cbn [bind]. rewrite Hc2. cbn [bind].
  eexists. split; [reflexivity |].
  exists b, [c1; c2]. split; [reflexivity |]. split; [reflexivity |].
  unfold object_ids, car_ids. cbn [flat_map app Game.gameSpace Game.next_id
    Game.set_next_id Game.set_objects Game.set_gameSpace].
  rewrite Hb1, Hb2, Hc11, Hc12, Hc21, Hc22.
  split; [| split].
  - repeat constructor; simpl; intuition lia.
  - intros id Hid. rewrite M3, M2, M1. simpl in Hid. intuition lia.
  - intros id Hid. rewrite M3, M2, M1 in Hid.
    destruct Hid as [E | [E | [E | [E | [E | [E | Hm]]]]]]; try lia.
    apply Hlt in Hm. fold n in Hm. lia.
Qed.

Lemma reset_inv (g g' : Game.t) :
  Game.reset g = Some g' ->
  Game.leftscore g' = Game.leftscore g /\
  Game.rightscore g' = Game.rightscore g /\
  Game.walls g' = Game.walls g /\
  Game.exit g' = Game.exit g /\
  Game.next_id g' = (Game.next_id g + 6)%nat /\
  poses g' = Some spawn_poses.
Proof.
  unfold Game.reset. intros H.
  destruct (Game.cars g) as [cs |]; [| discriminate]. cbn [bind] in H.
  destruct (Game.remove_cars _ cs) as [sp1 |]; [| discriminate].
  cbn [bind] in H.
  destruct (Game.ball g) as [b |]; [| discriminate]. cbn [bind] in H.
  destruct (Space_remove sp1 _) as [sp2 |]; [| discriminate].
  cbn [bind] in H.
  apply addObjects_inv in H. exact H.
Qed.

(** [reset] returns on a match in play, and the match is in play again. *)
Lemma reset_ok (g : Game.t) :
  in_play g -> exists g', Game.reset g = Some g' /\ in_play g'.
Proof.
  intros (b & cs & Hb & Hc & Hnd & Hin & Hlt).
  rewrite (reset_unfold g b cs Hb Hc).
  destruct (Space_remove_ok (object_ids b cs) (Game.gameSpace g) Hnd Hin)
    as (sp & Hrem & Hmem).
  rewrite Hrem. cbn [bind].
  apply addObjects_ok. simpl. intros m Hm. apply Hmem in Hm. now apply Hlt.
Qed.

(** ** The start of a match *)

Lemma in_play_more_members (g : Game.t) (sp : Space) (n : nat) :
  in_play g ->
  (forall m, In m (members (Game.gameSpace g)) -> In m (members sp)) ->
  (forall m, In m (members sp) -> (m < n)%nat) ->
  in_play (Game.set_next_id (Game.set_gameSpace g sp) n).
Proof.
  intros (b & cs & Hb & Hc & Hnd & Hin & Hlt) Hsub Hn.
  exists b, cs. repeat split; auto.
Qed.

Lemma start_ok (w : bool) :
  exists g,
    Game.start (Game.init w) = Some g /\ in_play g /\
    Game.walls g = w /\ Game.exit g = false /\
    Game.leftscore g = 0%Z /\ Game.rightscore g = 0%Z.
Proof.
  destruct (addObjects_ok (Game.init w)) as (g1 & Hadd & Hplay);
    [intros m [] |].
  destruct (addObjects_inv _ _ Hadd) as (Hl & Hr & Hw & He & Hn & _).
  unfold Game.start. rewrite Hadd. cbn [bind]. rewrite Hw.
  destruct w.
  - unfold Space_add_segments.
    assert (Hlt : forall m, In m (members (Game.gameSpace g1)) ->
                            (m < Game.next_id g1)%nat).
    { destruct Hplay as (b & cs & _ & _ & _ & _ & Hlt). exact Hlt. }
    remember (Game.next_id g1) as n eqn:En.
    destruct (Space_add_ok
                (map (fun s => shape_id (seg_shape s)) (Game.static_lines n))
                (Game.gameSpace g1)) as (sp & Hsp & Hmem).
    + simpl. repeat constructor; simpl; intuition lia.
    + simpl. intros id Hid Hin. apply Hlt in Hin. intuition lia.
    + rewrite Hsp. cbn [bind]. eexists. split; [reflexivity |].
      split; [| repeat split; assumption].
      rewrite En. apply in_play_more_members; [exact Hplay | |].
      * intros m Hm. simpl. apply Hmem. now right.
      * simpl. intros m Hm. apply Hmem in Hm. rewrite <- En.
        destruct Hm as [Hm | Hm]; [simpl in Hm; intuition lia |].
        apply Hlt in Hm. lia.
  - exists g1. repeat split; assumption.
Qed.

Lemma kickoff_start (w : bool) :
  Game.start (Game.init w) = Some (kickoff w) /\ in_play (kickoff w) /\
  Game.walls (kickoff w) = w /\ Game.exit (kickoff w) = false /\
  Game.leftscore (kickoff w) = 0%Z /\ Game.rightscore (kickoff w) = 0%Z.
Proof.
  destruct (start_ok w) as (g & Hs & H). unfold kickoff. now rewrite Hs.
Qed.

Lemma radians_0 : radians 0 = 0.
Proof. unfold radians. lra. Qed.

Lemma radians_180 : radians 180 = PI.
Proof. unfold radians. lra. Qed.

(** C9.  On a match in play, [reset()] returns, and a second [reset()]
    right after it returns too; after each of them the ball and the two
    cars are at the spawn constants (the ball at [BALL_POS]; one car at a
    third of the width facing 0 degrees, the other at two thirds, 50 further
    in y, facing 180 degrees), so the poses after the second are those
    after the first. *)
Theorem C9_reset_twice_same_poses (g : Game.t) :
  in_play g ->
  exists g1 g2,
    Game.reset g = Some g1 /\ Game.reset g1 = Some g2 /\
    poses g1 = Some spawn_poses /\
    poses g2 = poses g1 /\
    spawn_poses =
      (Vec2d.mk ((FIELD_WIDTH + GOAL_DEPTH) / 2) (FIELD_HEIGHT / 2),
       [ (Vec2d.mk ((FIELD_WIDTH + GOAL_DEPTH) / 3) (FIELD_HEIGHT / 2), 0);
         (Vec2d.mk (2 * (FIELD_WIDTH + GOAL_DEPTH) / 3)
                   (FIELD_HEIGHT / 2 + 50), PI) ]).
Proof.
  intros Hplay.
  destruct (reset_ok g Hplay) as (g1 & H1 & Hplay1).
  destruct (reset_ok g1 Hplay1) as (g2 & H2 & _).
  exists g1, g2.
  destruct (reset_inv _ _ H1) as (_ & _ & _ & _ & _ & P1).
  destruct (reset_inv _ _ H2) as (_ & _ & _ & _ & _ & P2).
  repeat split; try assumption.
  - now rewrite P1, P2.
  - unfold spawn_poses. now rewrite radians_0, radians_180.
Qed.

Lemma C9_reset_twice_witness :
  in_play (kickoff true) /\
  exists g1 g2,
    Game.reset (kickoff true) = Some g1 /\ Game.reset g1 = Some g2 /\
    poses g1 = Some spawn_poses /\ poses g2 = poses g1.
Proof.
  assert (Hplay : in_play (kickoff true)) by apply (kickoff_start true).
  split; [exact Hplay |].
  destruct (C9_reset_twice_same_poses (kickoff true) Hplay)
    as (g1 & g2 & H1 & H2 & P1 & P2 & _).
  exists g1, g2. repeat split; assumption.
Defined.

(** ** checkGoal *)

Lemma gtb_true (a b : R) : a > b -> gtb a b = true.
Proof. intros H. unfold gtb. destruct (Rgt_dec a b); [reflexivity | lra]. Qed.

Lemma gtb_false (a b : R) : a <= b -> gtb a b = false.
Proof. intros H. unfold gtb. destruct (Rgt_dec a b); [lra | reflexivity]. Qed.

(** The goal-mouth test of [checkGoal]. *)
Lemma in_mouth_iff (y topgoal botgoal : R) :
  gtb y topgoal && ltb y botgoal = true <-> topgoal < y < botgoal.
Proof.
  unfold gtb, ltb.
  destruct (Rgt_dec y topgoal), (Rlt_dec y botgoal); simpl;
    split; intros H; try discriminate; try reflexivity; lra.
Qed.

Lemma in_play_set_rightscore (g : Game.t) (n : Z) :
  in_play g -> in_play (Game.set_rightscore g n).
Proof. intros (b & cs & H). exists b, cs. exact H. Qed.

Lemma in_play_set_leftscore (g : Game.t) (n : Z) :
  in_play g -> in_play (Game.set_leftscore g n).
Proof. intros (b & cs & H). exists b, cs. exact H. Qed.

Lemma in_play_set_exit (g : Game.t) (e : bool) :
  in_play g -> in_play (Game.set_exit g e).
Proof. intros (b & cs & H). exists b, cs. exact H. Qed.

(** The three cases of [checkGoal], for goal lines in their order. *)
Lemma checkGoal_cases (g : Game.t) (b : Ball.t)
    (leftgoal rightgoal topgoal botgoal : R) :
  leftgoal <= rightgoal ->
  let x := Vec2d.x (Ball.getPos b) in
  let y := Vec2d.y (Ball.getPos b) in
  let scored := gtb y topgoal && ltb y botgoal in
  (x < leftgoal ->
   Game.checkGoal g b leftgoal rightgoal topgoal botgoal =
   Game.reset (if scored
               then Game.set_rightscore g (Game.rightscore g + 1)
               else g)) /\
  (x > rightgoal ->
   Game.checkGoal g b leftgoal rightgoal topgoal botgoal =
   Game.reset (if scored
               then Game.set_leftscore g (Game.leftscore g + 1)
               else g)) /\
  (leftgoal <= x <= rightgoal ->
   Game.checkGoal g b leftgoal rightgoal topgoal botgoal = Some g).
Proof.
  intros Hord x y scored. unfold Game.checkGoal. fold x y scored.
  repeat split; intros Hx.
  - rewrite ltb_true by exact Hx. reflexivity.
  - rewrite ltb_false by lra. rewrite gtb_true by exact Hx. reflexivity.
  - rewrite ltb_false by lra. rewrite gtb_false by lra. reflexivity.
Qed.

(** C5.  [checkGoal] with the goal lines in their order.  Ball left of
    the left goal line: it is [reset()] of the game in which [rightscore]
    is one more exactly when the ball's y is strictly between [topgoal] and
    [botgoal], so [reset()] is called whatever y is, and the state returned
    has [rightscore] one more or unchanged accordingly and [leftscore]
    unchanged.  Ball right of the right goal line: the same with
    [leftscore].  Ball between the lines: the game unchanged.  On a match in
    play [checkGoal] returns. *)
Theorem C5_checkGoal_scores_and_resets (g : Game.t) (b : Ball.t)
    (leftgoal rightgoal topgoal botgoal : R) :
  leftgoal <= rightgoal ->
  let x := Vec2d.x (Ball.getPos b) in
  let y := Vec2d.y (Ball.getPos b) in
  let result := Game.checkGoal g b leftgoal rightgoal topgoal botgoal in
  (x < leftgoal ->
   (topgoal < y < botgoal ->
    result = Game.reset (Game.set_rightscore g (Game.rightscore g + 1)) /\
    forall g', result = Some g' ->
      Game.rightscore g' = (Game.rightscore g + 1)%Z /\
      Game.leftscore g' = Game.leftscore g) /\
   (~ topgoal < y < botgoal ->
    result = Game.reset g /\
    forall g', result = Some g' ->
      Game.rightscore g' = Game.rightscore g /\
      Game.leftscore g' = Game.leftscore g)) /\
  (x > rightgoal ->
   (topgoal < y < botgoal ->
    result = Game.reset (Game.set_leftscore g (Game.leftscore g + 1)) /\
    forall g', result = Some g' ->
      Game.leftscore g' = (Game.leftscore g + 1)%Z /\
      Game.rightscore g' = Game.rightscore g) /\
   (~ topgoal < y < botgoal ->
    result = Game.reset g /\
    forall g', result = Some g' ->
      Game.leftscore g' = Game.leftscore g /\
      Game.rightscore g' = Game.rightscore g)) /\
  (leftgoal <= x <= rightgoal -> result = Some g) /\
  (in_play g -> exists g', result = Some g' /\ in_play g').
Proof.
  intros Hord x y result.
  destruct (checkGoal_cases g b leftgoal rightgoal topgoal botgoal Hord)
    as (Hleft & Hright & Hmid).
  fold x y result in Hleft, Hright, Hmid.
  pose proof (in_mouth_iff y topgoal botgoal) as Hmouth.
  destruct (gtb y topgoal && ltb y botgoal) eqn:Hscored.
  - assert (Hy : topgoal < y < botgoal) by now apply Hmouth.
    split; [| split; [| split]].
    + intros Hx. rewrite (Hleft Hx). split; [| tauto].
      intros _. split; [reflexivity |].
      intros g' Hg'. destruct (reset_inv _ _ Hg') as (El & Er & _).
      simpl in El, Er. now split.
    + intros Hx. rewrite (Hright Hx). split; [| tauto].
      intros _. split; [reflexivity |].
      intros g' Hg'. destruct (reset_inv _ _ Hg') as (El & Er & _).
      simpl in El, Er. now split.
    + exact Hmid.
    + intros Hplay.
      destruct (Rlt_dec x leftgoal) as [Hx | Hx];
        [| destruct (Rgt_dec x rightgoal) as [Hx' | Hx']].
      * rewrite (Hleft Hx). now apply reset_ok, in_play_set_rightscore.
      * rewrite (Hright Hx'). now apply reset_ok, in_play_set_leftscore.
      * exists g. split; [apply Hmid; lra | exact Hplay].
  - assert (Hy : ~ topgoal < y < botgoal).
    { intros Hy. apply Hmouth in Hy. discriminate. }
    split; [| split; [| split]].
    + intros Hx. rewrite (Hleft Hx). split; [tauto |].
      intros _. split; [reflexivity |].
      intros g' Hg'. destruct (reset_inv _ _ Hg') as (El & Er & _).
      now split.
    + intros Hx. rewrite (Hright Hx). split; [tauto |].
      intros _. split; [reflexivity |].
      intros g' Hg'. destruct (reset_inv _ _ Hg') as (El & Er & _).
      now split.
    + exact Hmid.
    + intros Hplay.
      destruct (Rlt_dec x leftgoal) as [Hx | Hx];
        [| destruct (Rgt_dec x rightgoal) as [Hx' | Hx']].
      * rewrite (Hleft Hx). now apply reset_ok.
      * rewrite (Hright Hx'). now apply reset_ok.
      * exists g. split; [apply Hmid; lra | exact Hplay].
Qed.

Lemma C5_checkGoal_witness :
  GOAL_DEPTH <= FIELD_WIDTH /\
  exists g',
    Game.checkGoal (kickoff true) (ball_at (Vec2d.mk 0 (FIELD_HEIGHT / 2)))
                   GOAL_DEPTH FIELD_WIDTH SIDE_WALL (SIDE_WALL + GOAL_HEIGHT)
    = Some g' /\
    Game.rightscore g' = 1%Z /\ Game.leftscore g' = 0%Z.
Proof.
  assert (Hord : GOAL_DEPTH <= FIELD_WIDTH)
    by (unfold GOAL_DEPTH, FIELD_WIDTH; lra).
  split; [exact Hord |].
  pose proof (C5_checkGoal_scores_and_resets (kickoff true)
                (ball_at (Vec2d.mk 0 (FIELD_HEIGHT / 2)))
                GOAL_DEPTH FIELD_WIDTH SIDE_WALL (SIDE_WALL + GOAL_HEIGHT)
                Hord) as H.
  cbv zeta in H. destruct H as (Hleft & _ & _ & Htotal).
  destruct (kickoff_start true) as (_ & Hplay & _ & _ & Hl & Hr).
  destruct (Htotal Hplay) as (g' & Hg' & _).
  exists g'. split; [exact Hg' |].
  assert (Hx : Vec2d.x (Ball.getPos (ball_at (Vec2d.mk 0 (FIELD_HEIGHT / 2))))
               < GOAL_DEPTH) by (simpl; unfold GOAL_DEPTH; lra).
  assert (Hy : SIDE_WALL <
               Vec2d.y (Ball.getPos (ball_at (Vec2d.mk 0 (FIELD_HEIGHT / 2))))
               < SIDE_WALL + GOAL_HEIGHT)
    by (simpl; unfold SIDE_WALL, FIELD_HEIGHT, GOAL_HEIGHT; lra).
  destruct (Hleft Hx) as (Hin & _).
  destruct (Hin Hy) as (_ & Hscore).
  destruct (Hscore g' Hg') as (E1 & E2).
  rewrite E1, E2, Hl, Hr. split; reflexivity.
Defined.

(** ** One tick *)

Lemma throttle_ids (keys : Keys) (c : Car.t) :
  car_ids (Car.throttle keys c) = car_ids c.
Proof.
  unfold Car.throttle.
  repeat match goal with
         | |- context [if ?b then _ else _] => destruct b
         end; reflexivity.
Qed.

Lemma update_ids (keys : Keys) (c : Car.t) :
  car_ids (Car.update keys c) = car_ids c.
Proof.
  rewrite <- (throttle_ids keys c).
  unfold Car.update, Car.reset_drift, Car.turn.
  destruct (K_LEFT keys); [reflexivity |].
  destruct (K_RIGHT keys); reflexivity.
Qed.

Lemma flat_map_car_ids (f : Car.t -> Car.t) (cs : list Car.t) :
  (forall c, car_ids (f c) = car_ids c) ->
  flat_map car_ids (map f cs) = flat_map car_ids cs.
Proof.
  intros Hf. induction cs as [| c rest IH]; [reflexivity |].
  cbn [map flat_map]. now rewrite Hf, IH.
Qed.

(** [update] on the cars and [decelerate] on the ball keep every object
    what it is. *)
Lemma object_ids_logic (keys : Keys) (b : Ball.t) (cs : list Car.t) :
  object_ids (Ball.decelerate b) (map (Car.update keys) cs) = object_ids b cs.
Proof.
  unfold object_ids. rewrite flat_map_car_ids by apply update_ids.
  reflexivity.
Qed.

Lemma in_play_set_objects (g : Game.t) (b b' : Ball.t) (cs cs' : list Car.t) :
  in_play g -> Game.ball g = Some b -> Game.cars g = Some cs ->
  object_ids b' cs' = object_ids b cs ->
  in_play (Game.set_objects g b' cs').
Proof.
  intros (b0 & cs0 & Hb0 & Hc0 & H) Hb Hc Hids.
  assert (b0 = b) by congruence. assert (cs0 = cs) by congruence. subst.
  exists b', cs'. rewrite Hids. repeat split; apply H.
Qed.

(** The physics step moves bodies; the objects, the space, the scores and
    the flags are the same. *)
Lemma step_inv (physics : Physics) (dt : R) (g : Game.t) :
  Game.leftscore (Game.step physics dt g) = Game.leftscore g /\
  Game.rightscore (Game.step physics dt g) = Game.rightscore g /\
  Game.walls (Game.step physics dt g) = Game.walls g /\
  Game.exit (Game.step physics dt g) = Game.exit g /\
  Game.gameSpace (Game.step physics dt g) = Game.gameSpace g /\
  Game.next_id (Game.step physics dt g) = Game.next_id g /\
  identities (Game.step physics dt g) = identities g.
Proof.
  unfold Game.step, identities.
  destruct (Game.ball g) as [b |] eqn:Hb;
    [destruct (Game.cars g) as [cs |] eqn:Hc |].
  - repeat split. cbn [Game.set_objects Game.ball Game.cars].
    f_equal. unfold object_ids. rewrite flat_map_car_ids; reflexivity.
  - rewrite Hb, Hc. repeat split.
  - rewrite Hb. repeat split.
Qed.

Lemma step_in_play (physics : Physics) (dt : R) (g : Game.t) :
  in_play g -> in_play (Game.step physics dt g).
Proof.
  intros Hplay.
  destruct (step_inv physics dt g) as (_ & _ & _ & _ & Hsp & Hn & Hid).
  destruct Hplay as (b & cs & Hb & Hc & H).
  unfold identities in Hid. rewrite Hb, Hc in Hid.
  destruct (Game.ball (Game.step physics dt g)) as [b' |] eqn:Hb';
    [| discriminate].
  destruct (Game.cars (Game.step physics dt g)) as [cs' |] eqn:Hc';
    [| discriminate].
  injection Hid as Hid.
  exists b', cs'. rewrite Hid, Hsp, Hn.
  split; [exact Hb' |]. split; [exact Hc' |]. exact H.
Qed.

(** [checkGoal] on a match in play returns; a score is the same or one
    more. *)
Lemma checkGoal_ok (g : Game.t) (b : Ball.t)
    (leftgoal rightgoal topgoal botgoal : R) :
  in_play g ->
  exists g',
    Game.checkGoal g b leftgoal rightgoal topgoal botgoal = Some g' /\
    in_play g' /\
    (Game.leftscore g <= Game.leftscore g' <= Game.leftscore g + 1)%Z /\
    (Game.rightscore g <= Game.rightscore g' <= Game.rightscore g + 1)%Z /\
    Game.walls g' = Game.walls g /\ Game.exit g' = Game.exit g.
Proof.
  intros Hplay. unfold Game.checkGoal.
  assert (Hreset : forall g1, in_play g1 ->
            exists g', Game.reset g1 = Some g' /\ in_play g' /\
              Game.leftscore g' = Game.leftscore g1 /\
              Game.rightscore g' = Game.rightscore g1 /\
              Game.walls g' = Game.walls g1 /\ Game.exit g' = Game.exit g1).
  { intros g1 H1. destruct (reset_ok g1 H1) as (g' & Hr & Hp).
    exists g'. destruct (reset_inv _ _ Hr) as (? & ? & ? & ? & _).
    repeat split; assumption. }
  destruct (ltb _ leftgoal); [| destruct (gtb _ rightgoal)].
  - destruct (gtb _ topgoal && ltb _ botgoal).
    + destruct (Hreset _ (in_play_set_rightscore
                            g (Game.rightscore g + 1) Hplay))
        as (g' & Hr & Hp & El & Er & Ew & Ee).
      exists g'. simpl in *. repeat split; auto; lia.
    + destruct (Hreset g Hplay) as (g' & Hr & Hp & El & Er & Ew & Ee).
      exists g'. repeat split; auto; lia.
  - destruct (gtb _ topgoal && ltb _ botgoal).
    + destruct (Hreset _ (in_play_set_leftscore
                            g (Game.leftscore g + 1) Hplay))
        as (g' & Hr & Hp & El & Er & Ew & Ee).
      exists g'. simpl in *. repeat split; auto; lia.
    + destruct (Hreset g Hplay) as (g' & Hr & Hp & El & Er & Ew & Ee).
      exists g'. repeat split; auto; lia.
  - exists g. repeat split; auto; lia.
Qed.

(** A tick on a match in play returns, the match is in play after it, and
    no score has gone down. *)
Lemma tick_ok (physics : Physics) (inp : TickInput) (g : Game.t) :
  in_play g ->
  exists g',
    Game.tick physics inp g = Some g' /\ in_play g' /\
    (Game.leftscore g <= Game.leftscore g')%Z /\
    (Game.rightscore g <= Game.rightscore g')%Z.
Proof.
  intros Hplay. unfold Game.tick.
  set (g0 := if quit inp then Game.set_exit g true else g).
  assert (Hplay0 : in_play g0)
    by (unfold g0; destruct (quit inp); [now apply in_play_set_exit | easy]).
  assert (Hl0 : Game.leftscore g0 = Game.leftscore g)
    by (unfold g0; now destruct (quit inp)).
  assert (Hr0 : Game.rightscore g0 = Game.rightscore g)
    by (unfold g0; now destruct (quit inp)).
  destruct Hplay0 as (b & cs & Hb & Hc & H).
  rewrite Hc, Hb. cbn [bind].
  set (g1 := Game.set_objects g0 (Ball.decelerate b)
                              (map (Car.update (pressed inp)) cs)).
  assert (Hplay1 : in_play g1).
  { apply (in_play_set_objects g0 b _ cs); auto.
    - exists b, cs. auto.
    - apply object_ids_logic. }
  assert (Hgoal : exists g2,
            (if Game.walls g1
             then Game.checkGoal g1 (Ball.decelerate b) GOAL_DEPTH FIELD_WIDTH
                                 SIDE_WALL (SIDE_WALL + GOAL_HEIGHT)
             else Some g1) = Some g2 /\ in_play g2 /\
            (Game.leftscore g1 <= Game.leftscore g2)%Z /\
            (Game.rightscore g1 <= Game.rightscore g2)%Z).
  { destruct (Game.walls g1).
    - destruct (checkGoal_ok g1 (Ball.decelerate b) GOAL_DEPTH FIELD_WIDTH
                  SIDE_WALL (SIDE_WALL + GOAL_HEIGHT) Hplay1)
        as (g2 & Hg2 & Hp2 & Hl & Hr & _).
      exists g2. repeat split; auto; lia.
    - exists g1. repeat split; auto; lia. }
  destruct Hgoal as (g2 & Hg2 & Hp2 & Hl & Hr).
  rewrite Hg2. cbn [bind]. eexists. split; [reflexivity |].
  split; [now apply step_in_play |].
  destruct (step_inv physics (clock_time inp / 1000) g2) as (El & Er & _).
  rewrite El, Er. change (Game.leftscore g1) with (Game.leftscore g0) in Hl.
  change (Game.rightscore g1) with (Game.rightscore g0) in Hr. lia.
Qed.

Lemma loop_ok (physics : Physics) (inputs : list TickInput) :
  forall g : Game.t,
  in_play g ->
  exists g',
    Game.loop physics inputs g = Some g' /\ in_play g' /\
    (Game.leftscore g <= Game.leftscore g')%Z /\
    (Game.rightscore g <= Game.rightscore g')%Z.
Proof.
  induction inputs as [| inp rest IH]; intros g Hplay; simpl.
  - exists g. repeat split; auto; lia.
  - destruct (Game.exit g).
    + exists g. repeat split; auto; lia.
    + destruct (tick_ok physics inp g Hplay) as (g1 & Ht & Hp1 & Hl1 & Hr1).
      rewrite Ht. cbn [bind].
      destruct (IH g1 Hp1) as (g' & Hloop & Hp & Hl & Hr).
      exists g'. repeat split; auto; lia.
Qed.

(** C7.  On a match in play: [reset()] returns with both scores exactly
    as they were and the objects at their spawn poses; [checkGoal] returns
    with each score the same or one more; a tick, and the loop over any
    sequence of ticks, return with neither score lower than it was. *)
Theorem C7_scores_never_decrease
    (physics : Physics) (inputs : list TickInput) (g : Game.t) :
  in_play g ->
  (exists g1,
     Game.reset g = Some g1 /\
     Game.leftscore g1 = Game.leftscore g /\
     Game.rightscore g1 = Game.rightscore g /\
     poses g1 = Some spawn_poses) /\
  (forall b leftgoal rightgoal topgoal botgoal, exists g2,
     Game.checkGoal g b leftgoal rightgoal topgoal botgoal = Some g2 /\
     (Game.leftscore g <= Game.leftscore g2 <= Game.leftscore g + 1)%Z /\
     (Game.rightscore g <= Game.rightscore g2 <= Game.rightscore g + 1)%Z) /\
  (forall inp, exists g3,
     Game.tick physics inp g = Some g3 /\
     (Game.leftscore g <= Game.leftscore g3)%Z /\
     (Game.rightscore g <= Game.rightscore g3)%Z) /\
  (exists g',
     Game.loop physics inputs g = Some g' /\
     (Game.leftscore g <= Game.leftscore g')%Z /\
     (Game.rightscore g <= Game.rightscore g')%Z).
Proof.
  intros Hplay. split; [| split; [| split]].
  - destruct (reset_ok g Hplay) as (g1 & Hr & _).
    destruct (reset_inv _ _ Hr) as (El & Er & _ & _ & _ & Hp).
    exists g1. repeat split; assumption.
  - intros b leftgoal rightgoal topgoal botgoal.
    destruct (checkGoal_ok g b leftgoal rightgoal topgoal botgoal Hplay)
      as (g2 & Hg2 & _ & Hl & Hr & _).
    exists g2. repeat split; auto; lia.
  - intros inp.
    destruct (tick_ok physics inp g Hplay) as (g3 & Ht & _ & Hl & Hr).
    exists g3. repeat split; assumption.
  - destruct (loop_ok physics inputs g Hplay) as (g' & Hloop & _ & Hl & Hr).
    exists g'. repeat split; assumption.
Qed.

Lemma C7_scores_witness :
  in_play (kickoff true) /\
  exists g',
    Game.loop free_motion
      [mkTickInput 16 false up_key; mkTickInput 16 false no_keys]
      (kickoff true) = Some g' /\
    (0 <= Game.leftscore g')%Z /\ (0 <= Game.rightscore g')%Z.
Proof.
  destruct (kickoff_start true) as (_ & Hplay & _ & _ & Hl & Hr).
  split; [exact Hplay |].
  destruct (C7_scores_never_decrease free_motion
              [mkTickInput 16 false up_key; mkTickInput 16 false no_keys]
              (kickoff true) Hplay) as (_ & _ & _ & g' & Hloop & Hl' & Hr').
  exists g'. rewrite Hl in Hl'. rewrite Hr in Hr'.
  repeat split; assumption.
Defined.

(** ** Without walls *)

(** A tick without walls: the keys, the logic of the objects and the
    physics step; [checkGoal] and [reset] have no part in it. *)
Lemma tick_without_walls (physics : Physics) (inp : TickInput) (g : Game.t)
    (b : Ball.t) (cs : list Car.t) :
  Game.walls g = false ->
  Game.ball g = Some b -> Game.cars g = Some cs ->
  Game.tick physics inp g =
  Some (Game.step physics (clock_time inp / 1000)
          (Game.set_objects (if quit inp then Game.set_exit g true else g)
             (Ball.decelerate b) (map (Car.update (pressed inp)) cs))).
Proof.
  intros Hw Hb Hc. unfold Game.tick.
  destruct (quit inp); cbn [Game.set_exit Game.cars Game.ball Game.walls
                             Game.set_objects];
    rewrite Hc, Hb, Hw; reflexivity.
Qed.

Lemma tick_without_walls_inv (physics : Physics) (inp : TickInput)
    (g : Game.t) (ids : list nat) :
  Game.walls g = false -> identities g = Some ids ->
  exists g',
    Game.tick physics inp g = Some g' /\
    Game.walls g' = false /\ identities g' = Some ids /\
    Game.leftscore g' = Game.leftscore g /\
    Game.rightscore g' = Game.rightscore g /\
    Game.gameSpace g' = Game.gameSpace g /\
    Game.next_id g' = Game.next_id g.
Proof.
  intros Hw Hid. unfold identities in Hid.
  destruct (Game.ball g) as [b |] eqn:Hb; [| discriminate].
  destruct (Game.cars g) as [cs |] eqn:Hc; [| discriminate].
  injection Hid as Hid.
  rewrite (tick_without_walls physics inp g b cs Hw Hb Hc).
  eexists. split; [reflexivity |].
  match goal with
  | |- context [Game.step physics ?dt ?g1] =>
      destruct (step_inv physics dt g1) as (El & Er & Ew & _ & Es & En & Ei)
  end.
  rewrite El, Er, Ew, Es, En, Ei.
  unfold identities. cbn [Game.set_objects Game.ball Game.cars].
  rewrite object_ids_logic, Hid.
  destruct (quit inp); repeat split; assumption.
Qed.

Lemma loop_without_walls (physics : Physics) (inputs : list TickInput)
    (ids : list nat) : forall g : Game.t,
  Game.walls g = false -> identities g = Some ids ->
  exists g',
    Game.loop physics inputs g = Some g' /\
    Game.walls g' = false /\ identities g' = Some ids /\
    Game.leftscore g' = Game.leftscore g /\
    Game.rightscore g' = Game.rightscore g /\
    Game.gameSpace g' = Game.gameSpace g /\
    Game.next_id g' = Game.next_id g.
Proof.
  induction inputs as [| inp rest IH]; intros g Hw Hid; simpl.
  - exists g. repeat split; assumption.
  - destruct (Game.exit g).
    + exists g. repeat split; assumption.
    + destruct (tick_without_walls_inv physics inp g ids Hw Hid)
        as (g1 & Ht & Hw1 & Hid1 & El & Er & Es & En).
      rewrite Ht. cbn [bind].
      destruct (IH g1 Hw1 Hid1)
        as (g' & Hl & Hw' & Hid' & El' & Er' & Es' & En').
      exists g'. repeat split; try assumption; congruence.
Qed.

(** C6.  With walls off, on a game that holds its objects (whatever the
    position of the ball): every tick is the keys, the logic of the objects
    and the physics step only, and the loop over any sequence of ticks
    returns with both scores as they were, the same space, the same
    allocation counter and the same objects ([reset()] would take the
    objects out of the space and put new ones in). *)
Theorem C6_no_goal_detection_without_walls
    (physics : Physics) (inputs : list TickInput) (g : Game.t)
    (b : Ball.t) (cs : list Car.t) :
  Game.walls g = false ->
  Game.ball g = Some b -> Game.cars g = Some cs ->
  (forall inp,
     Game.tick physics inp g =
     Some (Game.step physics (clock_time inp / 1000)
             (Game.set_objects (if quit inp then Game.set_exit g true else g)
                (Ball.decelerate b) (map (Car.update (pressed inp)) cs)))) /\
  exists g',
    Game.loop physics inputs g = Some g' /\
    Game.leftscore g' = Game.leftscore g /\
    Game.rightscore g' = Game.rightscore g /\
    Game.gameSpace g' = Game.gameSpace g /\
    Game.next_id g' = Game.next_id g /\
    identities g' = identities g.
Proof.
  intros Hw Hb Hc. split.
  - intros inp. now apply tick_without_walls.
  - assert (Hid : identities g = Some (object_ids b cs))
      by (unfold identities; now rewrite Hb, Hc).
    destruct (loop_without_walls physics inputs _ g Hw Hid)
      as (g' & Hl & _ & Hid' & El & Er & Es & En).
    exists g'. rewrite Hid. repeat split; assumption.
Qed.

Lemma C6_no_goal_detection_witness :
  Vec2d.x (Ball.getPos (ball_at (Vec2d.mk (-10) (FIELD_HEIGHT / 2))))
    < GOAL_DEPTH /\
  exists g',
    Game.loop free_motion
      [mkTickInput 16 false up_key; mkTickInput 16 false no_keys]
      stray_game = Some g' /\
    Game.leftscore g' = 0%Z /\ Game.rightscore g' = 0%Z /\
    Game.gameSpace g' = Game.gameSpace stray_game /\
    Game.next_id g' = 6%nat /\
    identities g' = Some [2; 3; 4; 5; 0; 1]%nat.
Proof.
  split; [simpl; unfold GOAL_DEPTH; lra |].
  destruct (C6_no_goal_detection_without_walls free_motion
              [mkTickInput 16 false up_key; mkTickInput 16 false no_keys]
              stray_game
              (ball_at (Vec2d.mk (-10) (FIELD_HEIGHT / 2)))
              [car_moving 1 Vec2d.zero; second_car]
              eq_refl eq_refl eq_refl)
    as (_ & g' & Hloop & El & Er & Es & En & Ei).
  exists g'. repeat split; assumption.
Defined.

(** * Further properties of the code *)

(** ** What update leaves alone, and which keys count *)

Lemma throttle_frame (keys : Keys) (c : Car.t) :
  position (Car.body (Car.throttle keys c)) = position (Car.body c) /\
  mass (Car.body (Car.throttle keys c)) = mass (Car.body c) /\
  moment (Car.body (Car.throttle keys c)) = moment (Car.body c) /\
  Car.steering (Car.throttle keys c) = Car.steering c.
Proof.
  unfold Car.throttle.
  repeat match goal with
         | |- context [if ?b then _ else _] => destruct b
         end; repeat split.
Qed.

(** [Car.update] writes the velocity, the angular velocity and the reverse
    flag, and nothing else: the car stays where it is, facing where it
    faces, and is the same object with the same mass, shape and steering. *)
Theorem update_frame (keys : Keys) (c : Car.t) :
  position (Car.body (Car.update keys c)) = position (Car.body c) /\
  angle (Car.body (Car.update keys c)) = angle (Car.body c) /\
  mass (Car.body (Car.update keys c)) = mass (Car.body c) /\
  moment (Car.body (Car.update keys c)) = moment (Car.body c) /\
  body_id (Car.body (Car.update keys c)) = body_id (Car.body c) /\
  Car.shape (Car.update keys c) = Car.shape c /\
  Car.steering (Car.update keys c) = Car.steering c.
Proof.
  destruct (throttle_frame keys c) as (Hp & Hm & Hi & Hs).
  pose proof (throttle_angle keys c) as Ha.
  pose proof (throttle_ids keys c) as Hid.
  unfold car_ids in Hid. injection Hid as Hb Hsh.
  assert (Hshape : Car.shape (Car.throttle keys c) = Car.shape c).
  { unfold Car.throttle.
    repeat match goal with
           | |- context [if ?b then _ else _] => destruct b
           end; reflexivity. }
  unfold Car.update, Car.reset_drift, Car.turn.
  destruct (K_LEFT keys); [| destruct (K_RIGHT keys)];
    cbn [Car.set_body Car.body Car.shape Car.steering set_velocity
         set_angular_velocity position angle mass moment body_id];
    repeat split; assumption.
Qed.

(** The keys as [update] reads them: of the throttle keys only the first
    held in the order up, down, space, and of the turn keys only the first
    held in the order left, right. *)
Theorem update_key_precedence (keys : Keys) (c : Car.t) :
  Car.update keys c =
  Car.update
    (mkKeys (K_UP keys)
            (negb (K_UP keys) && K_DOWN keys)
            (negb (K_UP keys) && negb (K_DOWN keys) && K_SPACE keys)
            (K_LEFT keys)
            (negb (K_LEFT keys) && K_RIGHT keys))
    c.
Proof.
  destruct keys as [[] [] [] [] []]; reflexivity.
Qed.

(** ** The throttle on a car that moves along its facing axis *)

Lemma aligned_speed (c : Car.t) (s : R) :
  reverse_ok c -> aligned c s -> Car.speed c = s.
Proof.
  intros Hok [Hs Hv]. unfold Car.speed. rewrite Hv.
  rewrite !length_scale, forward_direction_unit, IZR_reverse_abs
    by assumption.
  rewrite Rabs_pos_eq by assumption. ring.
Qed.

(** An impulse along the local x axis on such a car. *)
Lemma push_aligned (c : Car.t) (j : Vec2d.t) (s : R) :
  aligned c s -> mass (Car.body c) = CAR_MASS -> Vec2d.y j = 0 ->
  Car.speed (Car.push c j) =
  Rabs (IZR (Car.reverse c) * s + Vec2d.x j / CAR_MASS).
Proof.
  intros [Hs Hv] Hm Hy. unfold Car.speed.
  rewrite push_along_forward by assumption. rewrite Hv, Hm.
  replace (Vec2d.add _ _)
    with (Vec2d.scale (IZR (Car.reverse c) * s + Vec2d.x j / CAR_MASS)
                      (Car.forward_direction c)).
  - rewrite length_scale, forward_direction_unit. ring.
  - unfold Vec2d.add, Vec2d.scale. simpl. f_equal; ring.
Qed.

Lemma throttle_with_travel (keys : Keys) (c : Car.t) (s : R) :
  with_travel keys c -> mass (Car.body c) = CAR_MASS -> aligned c s ->
  Car.speed (Car.throttle keys c) = s + 1 /\
  Car.reverse (Car.throttle keys c) = Car.reverse c.
Proof.
  intros Hkeys Hm Hal. pose proof Hal as [Hs _].
  unfold Car.throttle.
  destruct Hkeys as [(Hup & Hr) | (Hup & Hdown & Hr)].
  - rewrite Hup, Hr. cbn [Z.eqb Pos.eqb].
    assert (E : Car.speed (Car.push c Car.impulse) = s + 1).
    { rewrite (push_aligned c _ s) by (assumption || (simpl; lra)).
      rewrite Hr. unfold Car.impulse, CAR_SPEED, CAR_MASS. simpl.
      rewrite Rabs_pos_eq; lra. }
    destruct (ltb _ 5); rewrite ?set_reverse_speed; split; try exact E;
      simpl; congruence.
  - rewrite Hup, Hdown, Hr. cbn [Z.eqb Pos.eqb].
    assert (E : Car.speed (Car.push c (Vec2d.neg Car.impulse)) = s + 1).
    { rewrite (push_aligned c _ s) by (assumption || (simpl; lra)).
      rewrite Hr. unfold Car.impulse, CAR_SPEED, CAR_MASS. simpl.
      rewrite Rabs_left; lra. }
    destruct (ltb _ 5); rewrite ?set_reverse_speed; split; try exact E;
      simpl; congruence.
Qed.

Lemma throttle_against_travel (keys : Keys) (c : Car.t) (s : R) :
  against_travel keys c -> mass (Car.body c) = CAR_MASS -> aligned c s ->
  Car.speed (Car.throttle keys c) = Rabs (s - 5) /\
  (Rabs (s - 5) < 5 ->
   Car.reverse (Car.throttle keys c) = (- Car.reverse c)%Z) /\
  (5 <= Rabs (s - 5) ->
   Car.reverse (Car.throttle keys c) = Car.reverse c).
Proof.
  intros Hkeys Hm Hal. pose proof Hal as [Hs _].
  unfold Car.throttle.
  destruct Hkeys as [(Hup & Hr) | (Hup & Hdown & Hr)].
  - rewrite Hup, Hr. cbn [Z.eqb Pos.eqb].
    assert (E : Car.speed (Car.push c (Vec2d.scale BRAKE_SPEED Car.impulse))
                = Rabs (s - 5)).
    { rewrite (push_aligned c _ s) by (assumption || (simpl; lra)).
      rewrite Hr. unfold Car.impulse, CAR_SPEED, BRAKE_SPEED, CAR_MASS.
      simpl. rewrite <- (Rabs_Ropp (s - 5)). f_equal. lra. }
    unfold ltb. rewrite E.
    destruct (Rlt_dec (Rabs (s - 5)) 5) as [Hlt | Hge];
      rewrite ?set_reverse_speed; (split; [exact E |]); split; intros H;
      try lra; simpl; congruence.
  - rewrite Hup, Hdown, Hr. cbn [Z.eqb Pos.eqb].
    assert (E : Car.speed (Car.push c
                  (Vec2d.scale BRAKE_SPEED (Vec2d.neg Car.impulse)))
                = Rabs (s - 5)).
    { rewrite (push_aligned c _ s) by (assumption || (simpl; lra)).
      rewrite Hr. unfold Car.impulse, CAR_SPEED, BRAKE_SPEED, CAR_MASS.
      simpl. f_equal. lra. }
    unfold ltb. rewrite E.
    destruct (Rlt_dec (Rabs (s - 5)) 5) as [Hlt | Hge];
      rewrite ?set_reverse_speed; (split; [exact E |]); split; intros H;
      try lra; simpl; congruence.
Qed.

Lemma throttle_handbrake (keys : Keys) (c : Car.t) (s : R) :
  handbrake keys -> reverse_ok c ->
  mass (Car.body c) = CAR_MASS -> aligned c s ->
  Car.speed (Car.throttle keys c) = Rabs (s - 5) /\
  Car.reverse (Car.throttle keys c) = Car.reverse c.
Proof.
  intros (Hup & Hdown & Hspace) Hok Hm Hal. pose proof Hal as [Hs _].
  unfold Car.throttle. rewrite Hup, Hdown, Hspace.
  destruct Hok as [Hr | Hr]; rewrite Hr; cbn [Z.eqb Pos.eqb];
    (split; [| now rewrite push_reverse]);
    rewrite (push_aligned c _ s) by (assumption || (simpl; lra));
    rewrite Hr; unfold Car.impulse, CAR_SPEED, BRAKE_SPEED, CAR_MASS; simpl.
  - f_equal. lra.
  - rewrite <- (Rabs_Ropp (s - 5)). f_equal. lra.
Qed.

(** After [update] the car moves along its facing axis. *)
Lemma update_aligned (keys : Keys) (c : Car.t) :
  reverse_ok c ->
  aligned (Car.update keys c)
          (Rmin (Car.speed (Car.throttle keys c)) MAX_SPEED).
Proof.
  intros Hok. split.
  - apply Rmin_glb; [apply speed_nonneg | unfold MAX_SPEED; lra].
  - rewrite update_velocity, update_forward_direction. reflexivity.
Qed.

(** Throttle in the direction of travel.  A car of mass [CAR_MASS] that
    moves along its facing axis at speed [s], with the key of its direction
    of travel held (up when going forwards, down when going backwards),
    leaves [update] one unit faster, up to [MAX_SPEED], in the same
    direction and with the same reverse flag. *)
Theorem update_accelerates (keys : Keys) (c : Car.t) (s : R) :
  with_travel keys c -> mass (Car.body c) = CAR_MASS -> aligned c s ->
  Car.reverse (Car.update keys c) = Car.reverse c /\
  Car.speed (Car.update keys c) = Rmin (s + 1) MAX_SPEED /\
  aligned (Car.update keys c) (Rmin (s + 1) MAX_SPEED).
Proof.
  intros Hkeys Hm Hal.
  assert (Hok : reverse_ok c).
  { destruct Hkeys as [(_ & Hr) | (_ & _ & Hr)]; [left | right]; exact Hr. }
  destruct (throttle_with_travel keys c s Hkeys Hm Hal) as [Es Er].
  pose proof (update_aligned keys c Hok) as Hal'. rewrite Es in Hal'.
  repeat split; try apply Hal'.
  - now rewrite update_reverse.
  - rewrite update_speed by assumption. now rewrite Es.
Qed.

(** Throttle against the direction of travel.  With the opposite key held
    the car brakes: it leaves [update] at speed [min(|s - 5|, MAX_SPEED)];
    its reverse flag is the opposite one exactly when [|s - 5| < 5], that
    is when [0 < s < 10], and is unchanged otherwise. *)
Theorem update_brakes (keys : Keys) (c : Car.t) (s : R) :
  against_travel keys c -> mass (Car.body c) = CAR_MASS -> aligned c s ->
  Car.speed (Car.update keys c) = Rmin (Rabs (s - 5)) MAX_SPEED /\
  (0 < s < 10 -> Car.reverse (Car.update keys c) = (- Car.reverse c)%Z) /\
  (s = 0 \/ 10 <= s -> Car.reverse (Car.update keys c) = Car.reverse c) /\
  aligned (Car.update keys c) (Rmin (Rabs (s - 5)) MAX_SPEED).
Proof.
  intros Hkeys Hm Hal. pose proof Hal as [Hs _].
  assert (Hok : reverse_ok c).
  { destruct Hkeys as [(_ & Hr) | (_ & _ & Hr)]; [right | left]; exact Hr. }
  destruct (throttle_against_travel keys c s Hkeys Hm Hal)
    as (Es & Hflip & Hkeep).
  pose proof (update_aligned keys c Hok) as Hal'. rewrite Es in Hal'.
  rewrite update_reverse.
  split; [| split; [| split]].
  - rewrite update_speed by assumption. now rewrite Es.
  - intros H. apply Hflip. apply Rabs_def1; lra.
  - intros H. apply Hkeep. unfold Rabs. destruct (Rcase_abs (s - 5)); lra.
  - exact Hal'.
Qed.

(** The handbrake.  With only space held, a car of mass [CAR_MASS] that
    moves along its facing axis at speed [s] leaves [update] at speed
    [min(|s - 5|, MAX_SPEED)] with its reverse flag unchanged; from speed 5
    on this is 5 less, in the same direction. *)
Theorem update_handbrake (keys : Keys) (c : Car.t) (s : R) :
  handbrake keys -> reverse_ok c ->
  mass (Car.body c) = CAR_MASS -> aligned c s ->
  Car.reverse (Car.update keys c) = Car.reverse c /\
  Car.speed (Car.update keys c) = Rmin (Rabs (s - 5)) MAX_SPEED /\
  (5 <= s <= MAX_SPEED -> aligned (Car.update keys c) (s - 5)).
Proof.
  intros Hkeys Hok Hm Hal.
  destruct (throttle_handbrake keys c s Hkeys Hok Hm Hal) as [Es Er].
  pose proof (update_aligned keys c Hok) as Hal'. rewrite Es in Hal'.
  split; [| split].
  - now rewrite update_reverse.
  - rewrite update_speed by assumption. now rewrite Es.
  - intros H. unfold MAX_SPEED in *.
    rewrite Rabs_pos_eq, Rmin_left in Hal' by lra. exact Hal'.
Qed.

Lemma car_aligned_east (s : R) :
  0 <= s -> aligned (car_moving 1 (Vec2d.mk s 0)) s.
Proof.
  intros Hs. split; [exact Hs |].
  rewrite car_moving_forward. unfold Vec2d.scale. simpl. f_equal; lra.
Qed.

Lemma car_aligned_west (s : R) :
  0 <= s -> aligned (car_moving (-1) (Vec2d.mk (- s) 0)) s.
Proof.
  intros Hs. split; [exact Hs |].
  rewrite car_moving_forward. unfold Vec2d.scale. simpl. f_equal; lra.
Qed.

Lemma update_frame_witness :
  position (Car.body (Car.update all_keys (car_moving 1 (Vec2d.mk 3 4)))) =
    Vec2d.zero /\
  angle (Car.body (Car.update all_keys (car_moving 1 (Vec2d.mk 3 4)))) = 0.
Proof.
  destruct (update_frame all_keys (car_moving 1 (Vec2d.mk 3 4)))
    as (Hp & Ha & _).
  split; [exact Hp | exact Ha].
Defined.

Lemma update_accelerates_witness :
  Car.speed (Car.update up_key (car_moving 1 (Vec2d.mk 10 0))) = 11 /\
  Car.reverse (Car.update up_key (car_moving 1 (Vec2d.mk 10 0))) = 1%Z.
Proof.
  assert (Hal : aligned (car_moving 1 (Vec2d.mk 10 0)) 10)
    by (apply car_aligned_east; lra).
  assert (Hk : with_travel up_key (car_moving 1 (Vec2d.mk 10 0)))
    by (left; split; reflexivity).
  destruct (update_accelerates up_key (car_moving 1 (Vec2d.mk 10 0)) 10
              Hk eq_refl Hal) as (Er & Es & _).
  split; [| exact Er].
  rewrite Es. unfold MAX_SPEED. rewrite Rmin_left; lra.
Defined.

Lemma update_brakes_witness :
  Car.speed (Car.update down_key (car_moving 1 (Vec2d.mk 3 0))) = 2 /\
  Car.reverse (Car.update down_key (car_moving 1 (Vec2d.mk 3 0))) = (-1)%Z.
Proof.
  assert (Hal : aligned (car_moving 1 (Vec2d.mk 3 0)) 3)
    by (apply car_aligned_east; lra).
  assert (Hk : against_travel down_key (car_moving 1 (Vec2d.mk 3 0)))
    by (right; repeat split; reflexivity).
  destruct (update_brakes down_key (car_moving 1 (Vec2d.mk 3 0)) 3
              Hk eq_refl Hal) as (Es & Hflip & _).
  split.
  - rewrite Es. unfold MAX_SPEED. rewrite Rabs_left by lra.
    rewrite Rmin_left; lra.
  - rewrite Hflip by lra. reflexivity.
Defined.

Lemma update_handbrake_witness :
  Car.speed (Car.update space_key (car_moving 1 (Vec2d.mk 12 0))) = 7 /\
  Car.reverse (Car.update space_key (car_moving 1 (Vec2d.mk 12 0))) = 1%Z.
Proof.
  assert (Hal : aligned (car_moving 1 (Vec2d.mk 12 0)) 12)
    by (apply car_aligned_east; lra).
  assert (Hk : handbrake space_key) by (repeat split; reflexivity).
  assert (Hok : reverse_ok (car_moving 1 (Vec2d.mk 12 0)))
    by (left; reflexivity).
  destruct (update_handbrake space_key (car_moving 1 (Vec2d.mk 12 0)) 12
              Hk Hok eq_refl Hal) as (Er & Es & _).
  split; [| exact Er].
  rewrite Es. unfold MAX_SPEED. rewrite Rabs_pos_eq by lra.
  rewrite Rmin_left; lra.
Defined.

Lemma update_mass (keys : Keys) (c : Car.t) :
  mass (Car.body (Car.update keys c)) = mass (Car.body c).
Proof.
  destruct (throttle_frame keys c) as (_ & Hm & _).
  unfold Car.update, Car.reset_drift, Car.turn.
  destruct (K_LEFT keys); [| destruct (K_RIGHT keys)]; exact Hm.
Qed.

Lemma updates_cons (k : Keys) (ks : list Keys) (c : Car.t) :
  updates (k :: ks) c = updates ks (Car.update k c).
Proof. reflexivity. Qed.

Lemma Rmin_step (s n m : R) :
  0 <= n -> Rmin (Rmin (s + 1) m + n) m = Rmin (s + (n + 1)) m.
Proof.
  intros Hn.
  destruct (Rle_dec (s + 1) m) as [Hle | Hgt].
  - rewrite (Rmin_left (s + 1) m) by assumption. f_equal. ring.
  - rewrite (Rmin_right (s + 1) m) by lra.
    rewrite !Rmin_right by lra. reflexivity.
Qed.

(** Holding the up key.  A car of mass [CAR_MASS] that moves forwards
    along its facing axis at speed [s <= MAX_SPEED] and is updated [n] times
    with the up key held (whatever the other keys) moves forwards at speed
    [min(s + n, MAX_SPEED)]: one unit per update up to the ceiling. *)
Theorem updates_accelerate (ks : list Keys) : forall (c : Car.t) (s : R),
  Forall (fun k => K_UP k = true) ks ->
  Car.reverse c = 1%Z -> mass (Car.body c) = CAR_MASS ->
  aligned c s -> s <= MAX_SPEED ->
  Car.reverse (updates ks c) = 1%Z /\
  Car.speed (updates ks c) = Rmin (s + INR (length ks)) MAX_SPEED /\
  aligned (updates ks c) (Rmin (s + INR (length ks)) MAX_SPEED).
Proof.
  induction ks as [| k ks IH]; intros c s Hks Hr Hm Hal Hmax.
  - simpl. rewrite Rplus_0_r, Rmin_left by assumption.
    repeat split; try apply Hal; try assumption.
    apply aligned_speed; [left |]; assumption.
  - inversion Hks as [| ? ? Hk Hks']; subst.
    assert (Hok : reverse_ok c) by (left; exact Hr).
    destruct (throttle_with_travel k c s (or_introl (conj Hk Hr)) Hm Hal)
      as [Es1 Er1].
    pose proof (update_aligned k c Hok) as Hal1. rewrite Es1 in Hal1.
    assert (Er : Car.reverse (Car.update k c) = 1%Z)
      by (rewrite update_reverse; congruence).
    pose proof (update_mass k c) as Hm1. rewrite Hm in Hm1.
    destruct (IH (Car.update k c) (Rmin (s + 1) MAX_SPEED) Hks' Er Hm1 Hal1
                 (Rmin_r _ _)) as (Er' & Es' & Hal').
    rewrite updates_cons.
    change (length (k :: ks)) with (S (length ks)). rewrite S_INR.
    rewrite Rmin_step in Es', Hal' by apply pos_INR.
    repeat split; try apply Hal'; assumption.
Qed.

Lemma updates_accelerate_witness :
  Car.speed (updates [up_key; up_left_keys; all_keys]
                     (car_moving 1 (Vec2d.mk 10 0))) = 13.
Proof.
  assert (Hal : aligned (car_moving 1 (Vec2d.mk 10 0)) 10)
    by (apply car_aligned_east; lra).
  assert (Hks : Forall (fun k => K_UP k = true)
                       [up_key; up_left_keys; all_keys])
    by (repeat constructor).
  assert (Hmax : 10 <= MAX_SPEED) by (unfold MAX_SPEED; lra).
  destruct (updates_accelerate [up_key; up_left_keys; all_keys]
              (car_moving 1 (Vec2d.mk 10 0)) 10 Hks eq_refl eq_refl Hal Hmax)
    as (_ & Es & _).
  rewrite Es. simpl. unfold MAX_SPEED. rewrite Rmin_left; lra.
Defined.

(** ** Turning *)

Lemma turning_radius_33 : Car.turning_radius = 33.
Proof.
  unfold Car.turning_radius.
  replace (radians CAR_TURN) with (PI / 6)
    by (unfold radians, CAR_TURN; lra).
  rewrite sin_PI6. unfold CAR_LENGTH. lra.
Qed.

Lemma update_angular_velocity (keys : Keys) (c : Car.t) :
  angular_velocity (Car.body (Car.update keys c)) =
  if K_LEFT keys
  then Car.speed (Car.throttle keys c) / - Car.turning_radius
       * IZR (Car.reverse (Car.throttle keys c))
  else if K_RIGHT keys
  then Car.speed (Car.throttle keys c) / Car.turning_radius
       * IZR (Car.reverse (Car.throttle keys c))
  else 0.
Proof.
  unfold Car.update, Car.reset_drift, Car.turn.
  destruct (K_LEFT keys); [reflexivity |].
  destruct (K_RIGHT keys); reflexivity.
Qed.

(** Steering.  The turning radius is [CAR_LENGTH / sin(30 degrees) = 33].
    When the throttle chain leaves the car no faster than [MAX_SPEED], the
    car leaves [update] turning on a circle of that radius: with left held
    its angular velocity is [- speed / 33 * reverse], with right held (and
    not left) [speed / 33 * reverse], for the speed and the flag it leaves
    with; with neither it does not turn. *)
Theorem update_turns_on_radius_33 (keys : Keys) (c : Car.t) :
  reverse_ok c ->
  Car.speed (Car.throttle keys c) <= MAX_SPEED ->
  let c' := Car.update keys c in
  Car.turning_radius = 33 /\
  (K_LEFT keys = true ->
   angular_velocity (Car.body c') =
   - (Car.speed c' / 33) * IZR (Car.reverse c')) /\
  (K_LEFT keys = false -> K_RIGHT keys = true ->
   angular_velocity (Car.body c') =
   Car.speed c' / 33 * IZR (Car.reverse c')) /\
  (K_LEFT keys = false -> K_RIGHT keys = false ->
   angular_velocity (Car.body c') = 0).
Proof.
  intros Hok Hmax c'. subst c'.
  rewrite update_angular_velocity, update_speed, update_reverse
    by assumption.
  rewrite Rmin_left by assumption. rewrite turning_radius_33.
  split; [reflexivity |]. repeat split.
  - intros ->. field.
  - intros -> ->. reflexivity.
  - intros -> ->. reflexivity.
Qed.

Lemma update_turns_witness :
  angular_velocity
    (Car.body (Car.update up_left_keys (car_moving 1 (Vec2d.mk 32 0)))) = -1.
Proof.
  assert (Hal : aligned (car_moving 1 (Vec2d.mk 32 0)) 32)
    by (apply car_aligned_east; lra).
  assert (Hk : with_travel up_left_keys (car_moving 1 (Vec2d.mk 32 0)))
    by (left; split; reflexivity).
  assert (Hok : reverse_ok (car_moving 1 (Vec2d.mk 32 0)))
    by (left; reflexivity).
  destruct (throttle_with_travel _ _ _ Hk eq_refl Hal) as [Es _].
  assert (Hmax : Car.speed (Car.throttle up_left_keys
                              (car_moving 1 (Vec2d.mk 32 0))) <= MAX_SPEED)
    by (rewrite Es; unfold MAX_SPEED; lra).
  destruct (update_turns_on_radius_33 up_left_keys
              (car_moving 1 (Vec2d.mk 32 0)) Hok Hmax) as (_ & Hleft & _).
  rewrite (Hleft eq_refl).
  destruct (throttle_with_travel _ _ _ Hk eq_refl Hal) as [_ Er].
  rewrite update_speed, update_reverse, Es, Er by assumption.
  unfold MAX_SPEED. rewrite Rmin_left by lra.
  simpl. lra.
Defined.

(** ** The ball *)

Lemma scale_scale (k l : R) (v : Vec2d.t) :
  Vec2d.scale l (Vec2d.scale k v) = Vec2d.scale (k * l) v.
Proof. unfold Vec2d.scale. simpl. f_equal; ring. Qed.

Lemma decelerates_S (n : nat) (b : Ball.t) :
  decelerates (S n) b = Ball.decelerate (decelerates n b).
Proof. reflexivity. Qed.

(** Linear drag.  A ball with speed at least [n * BALL_DECELERATION] that
    is decelerated [n] times (with nothing else acting on it) has lost
    exactly [n * BALL_DECELERATION] of speed, still moves in the direction
    it moved in, and is where it was. *)
Theorem decelerates_fast_ball (n : nat) (b : Ball.t) :
  INR n * BALL_DECELERATION <= Vec2d.length (velocity (Ball.body b)) ->
  Vec2d.length (velocity (Ball.body (decelerates n b))) =
    Vec2d.length (velocity (Ball.body b)) - INR n * BALL_DECELERATION /\
  (exists k, 0 <= k /\
     velocity (Ball.body (decelerates n b)) =
     Vec2d.scale k (velocity (Ball.body b))) /\
  position (Ball.body (decelerates n b)) = position (Ball.body b).
Proof.
  assert (HBD : BALL_DECELERATION = 0.1) by reflexivity.
  induction n as [| n IH]; intros Hfast.
  - simpl. split; [lra |]. split; [| reflexivity].
    exists 1. split; [lra |]. unfold Vec2d.scale.
    destruct (velocity (Ball.body b)) as [vx vy]. simpl. f_equal; ring.
  - rewrite S_INR in *.
    assert (Hn : 0 <= INR n) by apply pos_INR.
    destruct IH as (Es & (k & Hk & Ev) & Ep); [nra |].
    rewrite decelerates_S.
    set (b1 := decelerates n b) in *.
    destruct (decelerate_fast_ball b1) as (Es1 & k1 & Hk1 & Ev1);
      [rewrite Es; nra |].
    split; [| split].
    + rewrite Es1, Es. rewrite Rmax_right by nra. ring.
    + exists (k * k1). split; [now apply Rmult_le_pos |].
      rewrite Ev1, Ev. apply scale_scale.
    + rewrite <- Ep. reflexivity.
Qed.

Lemma decelerates_fast_ball_witness :
  Vec2d.length
    (velocity (Ball.body (decelerates 3 (ball_moving (Vec2d.mk 3 4))))) = 4.7.
Proof.
  assert (Hs : Vec2d.length
                 (velocity (Ball.body (ball_moving (Vec2d.mk 3 4)))) = 5)
    by (simpl; apply length_of_square; lra).
  destruct (decelerates_fast_ball 3 (ball_moving (Vec2d.mk 3 4)))
    as (Es & _).
  - rewrite Hs. unfold BALL_DECELERATION. simpl. lra.
  - rewrite Es, Hs. unfold BALL_DECELERATION. simpl. lra.
Defined.

(** A new ball.  When [Ball.__init__] returns, the ball is at [(x, y)],
    does not spin, and moves with the impulse over [BALL_MASS]; its body and
    its shape are the two new members of the space. *)
Theorem Ball_init_state (x y : R) (sp sp' : Space) (j : Vec2d.t) (n : nat)
    (b : Ball.t) :
  Ball.init x y sp j n = Some (b, sp') ->
  position (Ball.body b) = Vec2d.mk x y /\
  velocity (Ball.body b) = Vec2d.div j BALL_MASS /\
  angular_velocity (Ball.body b) = 0 /\
  members sp' =
    shape_id (Ball.shape b) :: body_id (Ball.body b) :: members sp /\
  contains sp (body_id (Ball.body b)) = false /\
  contains sp (shape_id (Ball.shape b)) = false.
Proof.
  unfold Ball.init. cbn [body_id shape_id set_position Body_init Space_add].
  unfold Space_add1.
  destruct (contains sp n) eqn:Hn; [discriminate |].
  destruct (contains _ (S n)) eqn:HSn; [discriminate |].
  intros H. injection H as Hb Hsp. subst b sp'.
  unfold contains in HSn. simpl in HSn.
  apply orb_false_iff in HSn. destruct HSn as [_ HSn].
  unfold apply_impulse_at_local_point, Vec2d.rotated, Vec2d.add,
    Vec2d.scale, Vec2d.div, Vec2d.cross.
  simpl. rewrite cos_0, sin_0.
  repeat split; try assumption.
  - destruct j as [jx jy]. simpl. f_equal; unfold Rdiv; ring.
  - unfold Rdiv. ring.
Qed.

Lemma Ball_init_state_witness :
  exists b sp',
    Ball.init 1 2 Space_init (Vec2d.mk 3 4) 0 = Some (b, sp') /\
    velocity (Ball.body b) = Vec2d.mk 30 40 /\
    members sp' = [1; 0]%nat.
Proof.
  eexists. eexists. split; [reflexivity |].
  destruct (Ball_init_state 1 2 Space_init _ (Vec2d.mk 3 4) 0 _ eq_refl)
    as (_ & Ev & _ & Em & _).
  split; [| exact Em].
  rewrite Ev. unfold Vec2d.div, BALL_MASS. simpl. f_equal; lra.
Defined.

(** ** reset: what comes back, what stays *)

Lemma Space_add_inv (ids : list nat) : forall sp sp' : Space,
  Space_add sp ids = Some sp' ->
  members sp' = rev ids ++ members sp /\
  static_segments sp' = static_segments sp.
Proof.
  induction ids as [| id rest IH]; intros sp sp' H; simpl in H.
  - injection H as <-. split; reflexivity.
  - unfold Space_add1 in H.
    destruct (contains sp id); [discriminate |].
    apply IH in H. destruct H as [Hm Hs]. simpl in Hm, Hs.
    split; [| exact Hs]. simpl. rewrite Hm, <- app_assoc. reflexivity.
Qed.

Lemma Space_remove_inv (ids : list nat) : forall sp sp' : Space,
  Space_remove sp ids = Some sp' ->
  static_segments sp' = static_segments sp /\
  (forall m, In m (members sp') <-> In m (members sp) /\ ~ In m ids).
Proof.
  induction ids as [| id rest IH]; intros sp sp' H; simpl in H.
  - injection H as <-. split; [reflexivity |]. intros m. simpl. tauto.
  - unfold Space_remove1 in H.
    destruct (contains sp id); [| discriminate].
    apply IH in H. destruct H as [Hs Hm]. simpl in Hs, Hm.
    split; [exact Hs |]. intros m. rewrite Hm, filter_In, negb_true_iff.
    rewrite Nat.eqb_neq. simpl. intuition congruence.
Qed.

Lemma fresh_body_at_rest (n : nat) (m i : R) (p : Vec2d.t) (a : R) :
  at_rest (set_angle (set_position (Body_init n m i) p) a).
Proof. split; reflexivity. Qed.

Lemma addObjects_fresh (g g' : Game.t) :
  Game.addObjects g = Some g' ->
  let n := Game.next_id g in
  exists b c1 c2,
    Game.ball g' = Some b /\ Game.cars g' = Some [c1; c2] /\
    at_rest (Ball.body b) /\
    at_rest (Car.body c1) /\ at_rest (Car.body c2) /\
    Car.reverse c1 = 1%Z /\ Car.reverse c2 = 1%Z /\
    object_ids b [c1; c2] = [n + 2; n + 3; n + 4; n + 5; n; n + 1]%nat /\
    static_segments (Game.gameSpace g') =
      static_segments (Game.gameSpace g) /\
    (forall m, In m (members (Game.gameSpace g')) <->
               (n <= m < n + 6)%nat \/ In m (members (Game.gameSpace g))).
Proof.
  intros H n. unfold Game.addObjects, Ball.init, Car.init in H. fold n in H.
  cbn [body_id shape_id set_position set_angle Body_init] in H.
  destruct (Space_add (Game.gameSpace g) _) as [sp1 |] eqn:E1;
    [| discriminate].
  cbn [bind] in H.
  destruct (Space_add sp1 _) as [sp2 |] eqn:E2; [| discriminate].
  cbn [bind] in H.
  destruct (Space_add sp2 _) as [sp3 |] eqn:E3; [| discriminate].
  cbn [bind] in H. injection H as H. subst g'.
  apply Space_add_inv in E1, E2, E3.
  destruct E1 as [M1 S1], E2 as [M2 S2], E3 as [M3 S3].
  do 3 eexists.
  split; [reflexivity |]. split; [reflexivity |].
  split; [| split; [| split; [| split; [| split; [| split; [| split]]]]]].
  - split; unfold apply_impulse_at_local_point, Vec2d.rotated, Vec2d.add,
      Vec2d.scale, Vec2d.cross, Vec2d.zero; simpl.
    + f_equal; ring.
    + unfold Rdiv. ring.
  - split; reflexivity.
  - split; reflexivity.
  - reflexivity.
  - reflexivity.
  - unfold object_ids, car_ids. simpl.
    repeat (f_equal; try lia).
  - simpl. now rewrite S3, S2, S1.
  - intros m. simpl. rewrite M3, M2, M1. simpl. intuition lia.
Qed.

(** [reset] starts the objects afresh.  When [reset()] returns, the game
    holds a new ball and two new cars (objects whose identities were not in
    use before), all three at rest, both cars with reverse flag [+1]. *)
Theorem reset_fresh_objects (g g1 : Game.t) :
  Game.reset g = Some g1 ->
  exists b c1 c2,
    Game.ball g1 = Some b /\ Game.cars g1 = Some [c1; c2] /\
    at_rest (Ball.body b) /\
    at_rest (Car.body c1) /\ at_rest (Car.body c2) /\
    Car.reverse c1 = 1%Z /\ Car.reverse c2 = 1%Z /\
    (forall id, In id (object_ids b [c1; c2]) ->
                (Game.next_id g <= id < Game.next_id g1)%nat).
Proof.
  intros H. destruct (reset_inv _ _ H) as (_ & _ & _ & _ & Hn & _).
  unfold Game.reset in H.
  destruct (Game.cars g) as [cs |]; [| discriminate]. cbn [bind] in H.
  destruct (Game.remove_cars _ cs) as [sp1 |]; [| discriminate].
  cbn [bind] in H.
  destruct (Game.ball g) as [b0 |]; [| discriminate]. cbn [bind] in H.
  destruct (Space_remove sp1 _) as [sp2 |]; [| discriminate].
  cbn [bind] in H.
  destruct (addObjects_fresh _ _ H)
    as (b & c1 & c2 & Hb & Hc & Rb & R1 & R2 & V1 & V2 & Hids & _).
  exists b, c1, c2. repeat split; try assumption; try apply Rb;
    try apply R1; try apply R2;
    rewrite Hids in *; simpl in *; intuition lia.
Qed.

Lemma reset_fresh_objects_witness :
  exists g1,
    Game.reset (kickoff true) = Some g1 /\
    exists b c1 c2,
      Game.ball g1 = Some b /\ Game.cars g1 = Some [c1; c2] /\
      at_rest (Ball.body b) /\
      Car.reverse c1 = 1%Z /\ Car.reverse c2 = 1%Z.
Proof.
  destruct (kickoff_start true) as (_ & Hplay & _).
  destruct (reset_ok (kickoff true) Hplay) as (g1 & Hr & _).
  exists g1. split; [exact Hr |].
  destruct (reset_fresh_objects (kickoff true) g1 Hr)
    as (b & c1 & c2 & Hb & Hc & Rb & _ & _ & V1 & V2 & _).
  exists b, c1, c2. repeat split; try assumption; apply Rb.
Defined.

(** [reset] and the space.  When [reset()] returns on a game holding ball
    [b] and cars [cs], the members of the space are the six new objects and
    every former member that was not one of the old objects: the walls
    stay, with their segments, and on a match in play none of the old
    objects is a member any more. *)
Theorem reset_space (g g1 : Game.t) (b : Ball.t) (cs : list Car.t) :
  Game.ball g = Some b -> Game.cars g = Some cs ->
  Game.reset g = Some g1 ->
  static_segments (Game.gameSpace g1) = static_segments (Game.gameSpace g) /\
  (forall m, In m (members (Game.gameSpace g1)) <->
     (Game.next_id g <= m < Game.next_id g + 6)%nat \/
     (In m (members (Game.gameSpace g)) /\ ~ In m (object_ids b cs))) /\
  (in_play g ->
   forall id, In id (object_ids b cs) ->
              ~ In id (members (Game.gameSpace g1))).
Proof.
  intros Hb Hc H. rewrite (reset_unfold g b cs Hb Hc) in H.
  destruct (Space_remove (Game.gameSpace g) (object_ids b cs))
    as [sp |] eqn:Hrem; [| discriminate].
  cbn [bind] in H.
  destruct (Space_remove_inv _ _ _ Hrem) as [Hs Hm].
  destruct (addObjects_fresh _ _ H)
    as (_ & _ & _ & _ & _ & _ & _ & _ & _ & _ & _ & Hs1 & Hm1).
  simpl in Hs1, Hm1.
  assert (Hmem : forall m, In m (members (Game.gameSpace g1)) <->
     (Game.next_id g <= m < Game.next_id g + 6)%nat \/
     (In m (members (Game.gameSpace g)) /\ ~ In m (object_ids b cs))).
  { intros m. rewrite Hm1, Hm. reflexivity. }
  split; [congruence |]. split; [exact Hmem |].
  intros (b0 & cs0 & Hb0 & Hc0 & _ & Hin & Hlt) id Hid Habs.
  assert (b0 = b) by congruence. assert (cs0 = cs) by congruence. subst.
  apply Hmem in Habs. destruct Habs as [Hnew | [_ Hnot]].
  - apply Hin, Hlt in Hid. lia.
  - contradiction.
Qed.

Lemma reset_space_witness :
  exists g1,
    Game.reset (kickoff true) = Some g1 /\
    static_segments (Game.gameSpace g1) =
      static_segments (Game.gameSpace (kickoff true)).
Proof.
  destruct (kickoff_start true) as (_ & Hplay & _).
  destruct (reset_ok (kickoff true) Hplay) as (g1 & Hr & _).
  exists g1. split; [exact Hr |].
  destruct Hplay as (b & cs & Hb & Hc & _).
  exact (proj1 (reset_space (kickoff true) g1 b cs Hb Hc Hr)).
Defined.

(** ** checkGoal and the tick, whatever the state *)

(** The spawn point of the ball lies between the goal lines. *)
Lemma BALL_POS_in_field :
  GOAL_DEPTH <= Vec2d.x BALL_POS <= FIELD_WIDTH.
Proof.
  unfold BALL_POS, GOAL_DEPTH, FIELD_WIDTH. simpl. lra.
Qed.

(** No second reset.  Right after a [reset()] that returned, [checkGoal]
    with the goal lines [run] passes finds the new ball between them and
    changes nothing: one crossing of a goal line counts once. *)
Theorem checkGoal_after_reset (g g1 : Game.t) (b1 : Ball.t) :
  Game.reset g = Some g1 -> Game.ball g1 = Some b1 ->
  Game.checkGoal g1 b1 GOAL_DEPTH FIELD_WIDTH SIDE_WALL
                 (SIDE_WALL + GOAL_HEIGHT) = Some g1.
Proof.
  intros Hr Hb.
  destruct (reset_inv _ _ Hr) as (_ & _ & _ & _ & _ & Hp).
  unfold poses in Hp. rewrite Hb in Hp.
  destruct (Game.cars g1) as [cs |]; [| discriminate].
  injection Hp as Hpos _.
  pose proof BALL_POS_in_field as Hin.
  unfold Game.checkGoal, Ball.getPos. rewrite Hpos.
  rewrite ltb_false, gtb_false by lra. reflexivity.
Qed.

Lemma checkGoal_after_reset_witness :
  exists g1 b1,
    Game.reset (kickoff true) = Some g1 /\ Game.ball g1 = Some b1 /\
    Game.checkGoal g1 b1 GOAL_DEPTH FIELD_WIDTH SIDE_WALL
                   (SIDE_WALL + GOAL_HEIGHT) = Some g1.
Proof.
  destruct (kickoff_start true) as (_ & Hplay & _).
  destruct (reset_ok (kickoff true) Hplay) as (g1 & Hr & Hplay1).
  destruct Hplay1 as (b1 & cs1 & Hb1 & _).
  exists g1, b1. split; [exact Hr |]. split; [exact Hb1 |].
  exact (checkGoal_after_reset (kickoff true) g1 b1 Hr Hb1).
Defined.

(** Whenever [checkGoal] returns: the flags are as they were and at most
    one score is one more. *)
Lemma checkGoal_inv (g g' : Game.t) (b : Ball.t)
    (leftgoal rightgoal topgoal botgoal : R) :
  Game.checkGoal g b leftgoal rightgoal topgoal botgoal = Some g' ->
  Game.exit g' = Game.exit g /\ Game.walls g' = Game.walls g /\
  ((Game.leftscore g' = Game.leftscore g /\
    Game.rightscore g' = Game.rightscore g) \/
   (Game.leftscore g' = (Game.leftscore g + 1)%Z /\
    Game.rightscore g' = Game.rightscore g) \/
   (Game.leftscore g' = Game.leftscore g /\
    Game.rightscore g' = (Game.rightscore g + 1)%Z)).
Proof.
  unfold Game.checkGoal. intros H.
  destruct (ltb _ leftgoal); [| destruct (gtb _ rightgoal)].
  - destruct (gtb _ topgoal && ltb _ botgoal);
      apply reset_inv in H; destruct H as (El & Er & Ew & Ee & _);
      simpl in *; repeat split; auto.
  - destruct (gtb _ topgoal && ltb _ botgoal);
      apply reset_inv in H; destruct H as (El & Er & Ew & Ee & _);
      simpl in *; repeat split; auto.
  - injection H as <-. repeat split; auto.
Qed.

Lemma tick_inv (physics : Physics) (inp : TickInput) (g g' : Game.t) :
  Game.tick physics inp g = Some g' ->
  Game.exit g' = (Game.exit g || quit inp)%bool /\
  Game.walls g' = Game.walls g /\
  (Game.leftscore g <= Game.leftscore g')%Z /\
  (Game.rightscore g <= Game.rightscore g')%Z /\
  (Game.leftscore g' + Game.rightscore g' <=
   Game.leftscore g + Game.rightscore g + 1)%Z.
Proof.
  unfold Game.tick. intros H.
  set (g0 := if quit inp then Game.set_exit g true else g) in *.
  assert (H0 : Game.exit g0 = (Game.exit g || quit inp)%bool /\
               Game.walls g0 = Game.walls g /\
               Game.leftscore g0 = Game.leftscore g /\
               Game.rightscore g0 = Game.rightscore g).
  { unfold g0. destruct (quit inp); simpl; repeat split;
      destruct (Game.exit g); reflexivity. }
  destruct H0 as (Ee0 & Ew0 & El0 & Er0).
  destruct (Game.cars g0) as [cs |]; [| discriminate]. cbn [bind] in H.
  destruct (Game.ball g0) as [b |]; [| discriminate]. cbn [bind] in H.
  set (g1 := Game.set_objects g0 _ _) in *.
  assert (Hgoal : forall g2,
            (if Game.walls g1
             then Game.checkGoal g1 (Ball.decelerate b) GOAL_DEPTH FIELD_WIDTH
                                 SIDE_WALL (SIDE_WALL + GOAL_HEIGHT)
             else Some g1) = Some g2 ->
            Game.exit g2 = Game.exit g0 /\ Game.walls g2 = Game.walls g0 /\
            (Game.leftscore g0 <= Game.leftscore g2)%Z /\
            (Game.rightscore g0 <= Game.rightscore g2)%Z /\
            (Game.leftscore g2 + Game.rightscore g2 <=
             Game.leftscore g0 + Game.rightscore g0 + 1)%Z).
  { intros g2 H2. destruct (Game.walls g1).
    - apply checkGoal_inv in H2. simpl in H2.
      destruct H2 as (Ee & Ew & Hs). repeat split; auto; lia.
    - injection H2 as <-. simpl. repeat split; lia. }
  destruct (if Game.walls g1 then _ else _) as [g2 |]; [| discriminate].
  cbn [bind] in H. injection H as <-.
  destruct (Hgoal g2 eq_refl) as (Ee & Ew & Hl & Hr & Hsum).
  destruct (step_inv physics (clock_time inp / 1000) g2)
    as (El' & Er' & Ew' & Ee' & _).
  rewrite El', Er', Ew', Ee'. repeat split; try congruence; lia.
Qed.

Lemma loop_exit (physics : Physics) (inputs : list TickInput) (g : Game.t) :
  Game.exit g = true -> Game.loop physics inputs g = Some g.
Proof. intros H. destruct inputs; simpl; [| rewrite H]; reflexivity. Qed.

Lemma loop_inv (physics : Physics) (inputs : list TickInput) :
  forall g g' : Game.t,
  Game.loop physics inputs g = Some g' ->
  Game.walls g' = Game.walls g /\
  (Game.leftscore g <= Game.leftscore g')%Z /\
  (Game.rightscore g <= Game.rightscore g')%Z /\
  (Game.leftscore g' + Game.rightscore g' <=
   Game.leftscore g + Game.rightscore g + Z.of_nat (length inputs))%Z.
Proof.
  induction inputs as [| inp rest IH]; intros g g' H; simpl in H.
  - injection H as <-. simpl. repeat split; lia.
  - destruct (Game.exit g).
    + injection H as <-. repeat split; lia.
    + destruct (Game.tick physics inp g) as [g1 |] eqn:Ht; [| discriminate].
      cbn [bind] in H. apply tick_inv in Ht. apply IH in H.
      destruct Ht as (_ & Ew & Hl & Hr & Hs).
      destruct H as (Ew' & Hl' & Hr' & Hs').
      change (length (inp :: rest)) with (S (length rest)).
      repeat split; try congruence; lia.
Qed.

(** [run] returns.  From a new game, with walls or without, whatever the
    physics step does to the bodies and whatever the inputs, [run] raises
    nothing; the match it leaves is in play, no score is negative, and the
    two scores together are at most the number of ticks (a tick awards at
    most one point). *)
Theorem run_returns (physics : Physics) (inputs : list TickInput) (w : bool) :
  exists g',
    Game.run physics inputs (Game.init w) = Some g' /\
    in_play g' /\ Game.walls g' = w /\
    (0 <= Game.leftscore g')%Z /\ (0 <= Game.rightscore g')%Z /\
    (Game.leftscore g' + Game.rightscore g' <= Z.of_nat (length inputs))%Z.
Proof.
  destruct (kickoff_start w) as (Hs & Hplay & Hw & _ & Hl & Hr).
  destruct (loop_ok physics inputs (kickoff w) Hplay)
    as (g' & Hloop & Hplay' & _).
  exists g'. unfold Game.run. rewrite Hs. cbn [bind].
  destruct (loop_inv physics inputs _ _ Hloop) as (Ew & Hl' & Hr' & Hsum).
  repeat split; try assumption; try congruence; lia.
Qed.

(** Without walls no goal counts.  [Game()] has walls off; [run] from it
    ends, after any inputs, with both scores 0, and with the ball and the
    cars it created at the start (nothing was ever reset). *)
Theorem run_without_walls_never_scores
    (physics : Physics) (inputs : list TickInput) :
  exists g',
    Game.run physics inputs (Game.init false) = Some g' /\
    Game.leftscore g' = 0%Z /\ Game.rightscore g' = 0%Z /\
    Game.next_id g' = 6%nat /\
    identities g' = Some [2; 3; 4; 5; 0; 1]%nat.
Proof.
  destruct (kickoff_start false) as (Hs & _ & Hw & _ & Hl & Hr).
  assert (Hadd : Game.addObjects (Game.init false) = Some (kickoff false)).
  { unfold Game.start in Hs.
    destruct (Game.addObjects (Game.init false)) as [g1 |] eqn:E;
      [| discriminate].
    cbn [bind] in Hs.
    destruct (addObjects_inv _ _ E) as (_ & _ & Hw1 & _).
    rewrite Hw1 in Hs. simpl in Hs. exact Hs. }
  destruct (addObjects_inv _ _ Hadd) as (_ & _ & _ & _ & Hn & _).
  destruct (addObjects_fresh _ _ Hadd)
    as (b & c1 & c2 & Hb & Hc & _ & _ & _ & _ & _ & Hids & _).
  assert (Hid : identities (kickoff false) = Some [2; 3; 4; 5; 0; 1]%nat).
  { unfold identities. rewrite Hb, Hc, Hids. reflexivity. }
  destruct (loop_without_walls physics inputs _ (kickoff false) Hw Hid)
    as (g' & Hloop & _ & Hid' & El & Er & _ & En).
  exists g'. unfold Game.run. rewrite Hs. cbn [bind].
  repeat split; try assumption; congruence.
Qed.

(** ** The loop *)


(** Quitting.  A tick that reads a QUIT event is carried out in full (the
    cars, the ball, the goals, the physics step) and is the last one: the
    loop over it and any further inputs is that tick alone, and the game it
    returns has its exit flag set. *)
Theorem loop_quit (physics : Physics) (inp : TickInput)
    (rest : list TickInput) (g : Game.t) :
  Game.exit g = false -> quit inp = true ->
  Game.loop physics (inp :: rest) g = Game.tick physics inp g /\
  forall g', Game.tick physics inp g = Some g' -> Game.exit g' = true.
Proof.
  intros He Hq.
  assert (Hexit : forall g', Game.tick physics inp g = Some g' ->
                             Game.exit g' = true).
  { intros g' Ht. apply tick_inv in Ht. destruct Ht as (Ee & _).
    rewrite Ee, Hq. apply orb_true_r. }
  split; [| exact Hexit].
  cbn [Game.loop]. rewrite He.
  destruct (Game.tick physics inp g) as [g1 |] eqn:Ht; cbn [bind];
    [| reflexivity].
  apply loop_exit. now apply Hexit.
Qed.

Lemma loop_quit_witness :
  exists g',
    Game.loop free_motion
      [mkTickInput 16 true up_key; mkTickInput 16 false no_keys]
      (kickoff true) = Some g' /\
    Game.tick free_motion (mkTickInput 16 true up_key) (kickoff true)
      = Some g' /\
    Game.exit g' = true.
Proof.
  destruct (kickoff_start true) as (_ & Hplay & _ & He & _).
  destruct (tick_ok free_motion (mkTickInput 16 true up_key)
              (kickoff true) Hplay) as (g' & Ht & _).
  destruct (loop_quit free_motion (mkTickInput 16 true up_key)
              [mkTickInput 16 false no_keys] (kickoff true) He eq_refl)
    as (Hloop & Hexit).
  exists g'. split; [now rewrite Hloop |]. split; [exact Ht |].
  now apply Hexit.
Defined.

(** A tick with walls.  On a match in play with walls on, the tick tests
    the ball where the previous physics step left it ([decelerate] does not
    move it).  Ball between the goal lines: the scores, the objects and the
    allocation counter are as they were.  Ball beyond a goal line: six new
    objects are allocated, and the opposite side's score is one more when
    the ball is in the goal mouth, both scores unchanged when it is not. *)
Theorem tick_with_walls (physics : Physics) (inp : TickInput) (g : Game.t)
    (b : Ball.t) :
  in_play g -> Game.walls g = true -> Game.ball g = Some b ->
  let x := Vec2d.x (Ball.getPos b) in
  let y := Vec2d.y (Ball.getPos b) in
  let goal := if gtb y SIDE_WALL && ltb y (SIDE_WALL + GOAL_HEIGHT)
              then 1%Z else 0%Z in
  exists g',
    Game.tick physics inp g = Some g' /\
    (GOAL_DEPTH <= x <= FIELD_WIDTH ->
     Game.leftscore g' = Game.leftscore g /\
     Game.rightscore g' = Game.rightscore g /\
     Game.next_id g' = Game.next_id g /\
     identities g' = identities g) /\
    (x < GOAL_DEPTH ->
     Game.leftscore g' = Game.leftscore g /\
     Game.rightscore g' = (Game.rightscore g + goal)%Z /\
     Game.next_id g' = (Game.next_id g + 6)%nat) /\
    (x > FIELD_WIDTH ->
     Game.leftscore g' = (Game.leftscore g + goal)%Z /\
     Game.rightscore g' = Game.rightscore g /\
     Game.next_id g' = (Game.next_id g + 6)%nat).
Proof.
  intros Hplay Hw Hb x y goal.
  destruct (tick_ok physics inp g Hplay) as (g' & Ht & _).
  exists g'. split; [exact Ht |].
  destruct Hplay as (b0 & cs & Hb0 & Hc & _).
  assert (b0 = b) by congruence. subst b0.
  unfold Game.tick in Ht.
  set (g0 := if quit inp then Game.set_exit g true else g) in *.
  assert (H0 : Game.cars g0 = Some cs /\ Game.ball g0 = Some b /\
               Game.walls g0 = true /\
               Game.leftscore g0 = Game.leftscore g /\
               Game.rightscore g0 = Game.rightscore g /\
               Game.next_id g0 = Game.next_id g)
    by (unfold g0; destruct (quit inp); repeat split; assumption).
  destruct H0 as (Hc0 & Hb0' & Hw0 & El0 & Er0 & En0).
  rewrite Hc0, Hb0' in Ht. cbn [bind] in Ht.
  set (g1 := Game.set_objects g0 _ _) in *.
  change (Game.walls g1) with (Game.walls g0) in Ht. rewrite Hw0 in Ht.
  destruct (Game.checkGoal g1 _ _ _ _ _) as [g2 |] eqn:Hg; [| discriminate].
  cbn [bind] in Ht. injection Ht as <-.
  destruct (step_inv physics (clock_time inp / 1000) g2)
    as (El' & Er' & _ & _ & _ & En' & Ei').
  rewrite El', Er', En', Ei'.
  assert (Hord : GOAL_DEPTH <= FIELD_WIDTH)
    by (unfold GOAL_DEPTH, FIELD_WIDTH; lra).
  destruct (checkGoal_cases g1 (Ball.decelerate b) GOAL_DEPTH FIELD_WIDTH
              SIDE_WALL (SIDE_WALL + GOAL_HEIGHT) Hord)
    as (Hleft & Hright & Hmid).
  change (Ball.getPos (Ball.decelerate b)) with (Ball.getPos b)
    in Hleft, Hright, Hmid.
  fold x y in Hleft, Hright, Hmid.
  assert (Hid1 : identities g1 = identities g).
  { unfold identities. cbn [g1 Game.set_objects Game.ball Game.cars].
    rewrite object_ids_logic, Hb, Hc. reflexivity. }
  split; [| split].
  - intros Hx. rewrite (Hmid Hx) in Hg. injection Hg as <-.
    repeat split; assumption.
  - intros Hx. rewrite (Hleft Hx) in Hg. unfold goal.
    destruct (gtb y SIDE_WALL && ltb y (SIDE_WALL + GOAL_HEIGHT));
      apply reset_inv in Hg; destruct Hg as (El & Er & _ & _ & En & _);
      simpl in El, Er, En; repeat split; try congruence; lia.
  - intros Hx. rewrite (Hright Hx) in Hg. unfold goal.
    destruct (gtb y SIDE_WALL && ltb y (SIDE_WALL + GOAL_HEIGHT));
      apply reset_inv in Hg; destruct Hg as (El & Er & _ & _ & En & _);
      simpl in El, Er, En; repeat split; try congruence; lia.
Qed.

Lemma goal_game_in_play : in_play goal_game.
Proof.
  exists (ball_at (Vec2d.mk 10 (FIELD_HEIGHT / 2))),
         [car_moving 1 Vec2d.zero; second_car].
  split; [reflexivity |]. split; [reflexivity |].
  split; [| split].
  - repeat constructor; simpl; intuition lia.
  - simpl. intuition.
  - simpl. intuition lia.
Qed.

Lemma tick_with_walls_witness :
  exists g',
    Game.tick free_motion (mkTickInput 16 false up_key) goal_game = Some g' /\
    Game.leftscore g' = 0%Z /\ Game.rightscore g' = 1%Z /\
    Game.next_id g' = 12%nat.
Proof.
  destruct (tick_with_walls free_motion (mkTickInput 16 false up_key)
              goal_game (ball_at (Vec2d.mk 10 (FIELD_HEIGHT / 2)))
              goal_game_in_play eq_refl eq_refl)
    as (g' & Ht & _ & Hleft & _).
  exists g'. split; [exact Ht |].
  assert (Hx : Vec2d.x (Ball.getPos (ball_at (Vec2d.mk 10 (FIELD_HEIGHT / 2))))
               < GOAL_DEPTH) by (simpl; unfold GOAL_DEPTH; lra).
  destruct (Hleft Hx) as (El & Er & En).
  rewrite gtb_true, ltb_true in Er
    by (simpl; unfold SIDE_WALL, FIELD_HEIGHT, GOAL_HEIGHT; lra).
  split; [exact El |]. split; [exact Er | exact En].
Defined.

(** ** The spawn, and a game without objects *)

Lemma reset_two_cars (g g1 : Game.t) :
  Game.reset g = Some g1 -> exists c1 c2, Game.cars g1 = Some [c1; c2].
Proof.
  intros Hr. destruct (reset_inv _ _ Hr) as (_ & _ & _ & _ & _ & Hp).
  unfold poses in Hp.
  destruct (Game.ball g1) as [b |]; [| discriminate].
  destruct (Game.cars g1) as [[| c1 [| c2 [| c3 cs]]] |];
    try discriminate.
  now exists c1, c2.
Qed.

(** The cars face each other.  After a [reset()] that returned, the first
    car faces East, [forward_direction = (1, 0)], and the second, built with
    angle 180, faces West, [forward_direction = (-1, 0)]. *)
Theorem reset_cars_face_each_other (g g1 : Game.t) (c1 c2 : Car.t) :
  Game.reset g = Some g1 -> Game.cars g1 = Some [c1; c2] ->
  Car.forward_direction c1 = Vec2d.mk 1 0 /\
  Car.forward_direction c2 = Vec2d.mk (-1) 0.
Proof.
  intros Hr Hc.
  destruct (reset_inv _ _ Hr) as (_ & _ & _ & _ & _ & Hp).
  unfold poses in Hp. rewrite Hc in Hp.
  destruct (Game.ball g1) as [b |]; [| discriminate].
  injection Hp as _ _ Ha1 _ Ha2.
  unfold Car.forward_direction.
  rewrite Ha1, Ha2, radians_0, radians_180, cos_0, sin_0, cos_PI, sin_PI.
  split; reflexivity.
Qed.

Lemma reset_cars_face_witness :
  exists g1 c1 c2,
    Game.reset (kickoff true) = Some g1 /\
    Game.cars g1 = Some [c1; c2] /\
    Car.forward_direction c1 = Vec2d.mk 1 0 /\
    Car.forward_direction c2 = Vec2d.mk (-1) 0.
Proof.
  destruct (kickoff_start true) as (_ & Hplay & _).
  destruct (reset_ok (kickoff true) Hplay) as (g1 & Hr & _).
  destruct (reset_two_cars _ _ Hr) as (c1 & c2 & Hc).
  exists g1, c1, c2. split; [exact Hr |]. split; [exact Hc |].
  exact (reset_cars_face_each_other (kickoff true) g1 c1 c2 Hr Hc).
Defined.

(** Before [addObjects].  On a game that has no ball or no cars yet (as
    [Game.__init__] leaves it) [reset()] fails, and so does a tick of the
    loop: both read [self.cars] and [self.ball]. *)
Theorem no_objects_no_reset (physics : Physics) (inp : TickInput)
    (g : Game.t) :
  Game.cars g = None \/ Game.ball g = None ->
  Game.reset g = None /\ Game.tick physics inp g = None.
Proof.
  intros H. unfold Game.reset, Game.tick. split.
  - destruct (Game.cars g) as [cs |]; [| reflexivity]. cbn [bind].
    destruct (Game.remove_cars _ cs); [| reflexivity]. cbn [bind].
    destruct H as [H | H]; [discriminate | now rewrite H].
  - destruct (quit inp);
      cbn [Game.set_exit Game.cars Game.ball];
      destruct H as [H | H]; rewrite H; [reflexivity | | reflexivity |];
      destruct (Game.cars g); reflexivity.
Qed.

Lemma no_objects_no_reset_witness :
  Game.reset (Game.init true) = None /\
  Game.tick free_motion (mkTickInput 16 false up_key) (Game.init true) = None.
Proof.
  exact (no_objects_no_reset free_motion (mkTickInput 16 false up_key)
           (Game.init true) (or_introl eq_refl)).
Defined.
